(** * Miro: configuration store and item-list controllers

    A shallow embedding of [tv/lib/config.py] and of the parts of
    [tv/lib/frontends/widgets/itemlistcontroller.py] that deal with sort
    keys, selection restoring, bulk changes and animation timers.

    Python dictionaries are [gmap]s, Python sets are [gset]s, module-level
    globals are the fields of a state record that every function threads,
    and a raised exception is the [Raise] branch of a result type. *)

From Stdlib Require Import ZArith QArith Qcanon Ascii Lia.
From stdpp Require Import gmap strings list pretty.

Set Warnings "-clear-no-such-hyp".

Local Open Scope Z_scope.
Local Open Scope string_scope.
Local Open Scope list_scope.

(** ** Python values held by preferences *)

Module Py.

(** The values a preference can hold: [None], booleans, integers (Python 2
    [int] and [long]) and strings ([str] and [unicode]).  Floats are left
    out. *)
Inductive value : Type :=
  | VNone
  | VBool (b : bool)
  | VInt (n : Z)
  | VStr (s : string).

#[global] Instance value_eq_dec : EqDecision value.
Proof. solve_decision. Defined.

(** [bool] is a subclass of [int]: [True == 1] and [False == 0]. *)
Definition as_num (v : value) : option Z :=
  match v with
  | VBool b => Some (Z.b2z b)
  | VInt n => Some n
  | _ => None
  end.

(** [a == b]. *)
Definition py_eq (a b : value) : bool :=
  match as_num a, as_num b with
  | Some x, Some y => Z.eqb x y
  | None, None => bool_decide (a = b)
  | _, _ => false
  end.

(** [a != b]. *)
Definition py_ne (a b : value) : bool := negb (py_eq a b).

(** [v in l] for a list or tuple [l]. *)
Definition py_in (v : value) (l : list value) : bool :=
  existsb (fun e => py_eq e v) l.

(** ['%s' % v]. *)
Definition py_str (v : value) : string :=
  match v with
  | VNone => "None"
  | VBool true => "True"
  | VBool false => "False"
  | VInt n => pretty n
  | VStr s => s
  end.

End Py.

Import Py.

(** ** [tv/lib/config.py] *)

Module Config.

(** A preference descriptor of [miro.prefs]. *)
Record descriptor : Type := Pref {
  key : string;
  default : value;
  platformSpecific : bool;
  possible_values : option (list value);
  failsafe_value : value
}.

(** A descriptor object as the callers of this module hold it.
    [prefs.APP_SERIAL] is the one descriptor this module mutates ([load]
    reassigns its [key]), so that object lives in the state and is passed
    by reference; every other descriptor is passed as it is. *)
Inductive pref_ref : Type :=
  | PrefObj (d : descriptor)
  | APP_SERIAL.

(** The object [load] stores in [app.configfile], seen through its two
    methods [contains(key, use_theme_data)] and [get(key, use_theme_data)]. *)
Record AppConfig : Type := {
  contains : string -> bool -> bool;
  cfg_get : string -> bool -> value
}.

(** Callbacks are compared by identity; a callback is its identity. *)
Definition callback : Type := nat.

(** A call [eventloop.add_idle(callback, name, args=(key, value))] that has
    not run yet.  The name only labels the task and is left out. *)
Record idle_task : Type := IdleTask {
  task_callback : callback;
  task_args : string * value
}.

#[global] Instance idle_task_eq_dec : EqDecision idle_task.
Proof. solve_decision. Defined.

(** A line handed to [logging]: the warning of [get] about a bad
    preference value (the value, the key, the failsafe used instead) and
    the debug line of [set] (the key, the value). *)
Inductive log_record : Type :=
  | LogWarn (bad : value) (k : string) (failsafe : value)
  | LogDebug (k : string) (v : value).

(** The module globals ([_data], [TEMPORARY_SETTINGS], [_callbacks]), the
    attributes of [app] and [prefs] the module reads and writes, and what
    its collaborators hold: the platform's persistence file, the idle-task
    queue of the event loop and the log.  [_lock] is left out: the calls
    modelled here run one at a time, each from start to end. *)
Record state : Type := State {
  _data : option (gmap string value);
  TEMPORARY_SETTINGS : option (gmap string value);
  _callbacks : gset callback;
  app_configfile : AppConfig;
  app_in_unit_tests : bool;
  prefs_APP_SERIAL : descriptor;
  platform_store : option (gmap string value);
  idle_queue : list idle_task;
  log : list log_record
}.

Definition with_data (x : option (gmap string value)) (s : state) : state :=
  State x (TEMPORARY_SETTINGS s) (_callbacks s) (app_configfile s)
        (app_in_unit_tests s) (prefs_APP_SERIAL s) (platform_store s)
        (idle_queue s) (log s).

Definition with_temporary (x : option (gmap string value)) (s : state) : state :=
  State (_data s) x (_callbacks s) (app_configfile s)
        (app_in_unit_tests s) (prefs_APP_SERIAL s) (platform_store s)
        (idle_queue s) (log s).

Definition with_callbacks (x : gset callback) (s : state) : state :=
  State (_data s) (TEMPORARY_SETTINGS s) x (app_configfile s)
        (app_in_unit_tests s) (prefs_APP_SERIAL s) (platform_store s)
        (idle_queue s) (log s).

Definition with_configfile (x : AppConfig) (s : state) : state :=
  State (_data s) (TEMPORARY_SETTINGS s) (_callbacks s) x
        (app_in_unit_tests s) (prefs_APP_SERIAL s) (platform_store s)
        (idle_queue s) (log s).

Definition with_APP_SERIAL (x : descriptor) (s : state) : state :=
  State (_data s) (TEMPORARY_SETTINGS s) (_callbacks s) (app_configfile s)
        (app_in_unit_tests s) x (platform_store s)
        (idle_queue s) (log s).

Definition with_platform_store (x : option (gmap string value)) (s : state) : state :=
  State (_data s) (TEMPORARY_SETTINGS s) (_callbacks s) (app_configfile s)
        (app_in_unit_tests s) (prefs_APP_SERIAL s) x
        (idle_queue s) (log s).

Definition with_idle_queue (x : list idle_task) (s : state) : state :=
  State (_data s) (TEMPORARY_SETTINGS s) (_callbacks s) (app_configfile s)
        (app_in_unit_tests s) (prefs_APP_SERIAL s) (platform_store s)
        x (log s).

Definition with_log (x : list log_record) (s : state) : state :=
  State (_data s) (TEMPORARY_SETTINGS s) (_callbacks s) (app_configfile s)
        (app_in_unit_tests s) (prefs_APP_SERIAL s) (platform_store s)
        (idle_queue s) x.

(** Modelled from the spec: [platformcfg.load] is missing from the
    sources.  The store is "a platform-specific persistence file";
    [platformcfg.load()] returns what the file holds, [None] when it holds
    nothing. *)
Definition platformcfg_load (s : state) : option (gmap string value) :=
  platform_store s.

(** Modelled from the spec: [platformcfg.save] is missing from the
    sources.  [platformcfg.save(data)] overwrites the persistence file. *)
Definition platformcfg_save (data : option (gmap string value)) (s : state)
  : state :=
  with_platform_store data s.

(** Modelled from the spec: [eventloop.add_idle] is missing from the
    sources.  It puts the call at the end of the "single-threaded
    cooperative idle-task queue" and runs nothing. *)
Definition eventloop_add_idle (cb : callback) (args : string * value)
    (s : state) : state :=
  with_idle_queue (idle_queue s ++ [IdleTask cb args]) s.

(** The descriptor object a reference denotes in a state. *)
Definition deref (s : state) (r : pref_ref) : descriptor :=
  match r with
  | PrefObj d => d
  | APP_SERIAL => prefs_APP_SERIAL s
  end.

(** [descriptor.key = k]. *)
Definition set_key (k : string) (d : descriptor) : descriptor :=
  Pref k (default d) (platformSpecific d) (possible_values d) (failsafe_value d).

(** Truth value of [TEMPORARY_SETTINGS]: [None] and [{}] are false. *)
Definition truthy (o : option (gmap string value)) : bool :=
  match o with
  | None => false
  | Some t => negb (bool_decide (t = ∅))
  end.

(** [dict.get(k, dflt)]. *)
Definition dict_get (t : gmap string value) (k : string) (dflt : value) : value :=
  match t !! k with
  | Some v => v
  | None => dflt
  end.

Definition init_temporary (s : state) : state :=
  with_temporary (Some ∅) s.

Definition add_change_callback (cb : callback) (s : state) : state :=
  with_callbacks (_callbacks s ∪ {[cb]}) s.

Definition remove_change_callback (cb : callback) (s : state) : state :=
  with_callbacks (_callbacks s ∖ {[cb]}) s.

(** [for callback in _callbacks: eventloop.add_idle(callback, ..., args=(key, value))].
    The set is walked in the order [elements] lists it. *)
Definition _notify_listeners (k : string) (v : value) (s : state) : state :=
  foldl (fun s callback => eventloop_add_idle callback (k, v) s)
        s (elements (_callbacks s)).

Section WithCollaborators.

(** [prefs.APP_PLATFORM], [platformcfg.get] and the constructor
    [AppConfig(theme)] are defined outside this module. *)
Variable APP_PLATFORM : descriptor.
Variable platformcfg_get : descriptor -> value.
Variable new_AppConfig : option string -> AppConfig.

(** The body of [get] below its call to [_check_validity]. *)
Definition get_body (r : pref_ref) (use_theme_data : bool) (s : state)
  : value * state :=
  let descriptor := deref s r in
  match (if truthy (TEMPORARY_SETTINGS s)
         then TEMPORARY_SETTINGS s ≫= (fun t => t !! key descriptor)
         else None) with
  | Some v => (v, s)
  | None =>
    match _data s ≫= (fun d => d !! key descriptor) with
    | Some value =>
      match possible_values descriptor with
      | Some pv =>
        if negb (py_in value pv)
        then (failsafe_value descriptor,
              with_log (log s ++ [LogWarn value (key descriptor)
                                          (failsafe_value descriptor)]) s)
        else (value, s)
      | None => (value, s)
      end
    | None =>
      if platformSpecific descriptor then (platformcfg_get descriptor, s)
      else if contains (app_configfile s) (key descriptor) use_theme_data
      then (cfg_get (app_configfile s) (key descriptor) use_theme_data, s)
      else (default descriptor, s)
    end
  end.

(** [load(theme)].  Its call [get(prefs.APP_PLATFORM)] runs
    [_check_validity] on a [_data] that has just been assigned, which does
    nothing, so the nested call is [get_body]. *)
Definition load (theme : option string) (s : state) : state :=
  let s := with_configfile (new_AppConfig theme) s in
  let s := with_data (if negb (app_in_unit_tests s)
                      then platformcfg_load s
                      else Some ∅) s in
  let s := match _data s with
           | None => with_data (Some ∅) s
           | Some _ => s
           end in
  let '(platform, s) := get_body (PrefObj APP_PLATFORM) true s in
  with_APP_SERIAL (set_key ("appSerial-" +:+ py_str platform) (prefs_APP_SERIAL s)) s.

Definition _check_validity (s : state) : state :=
  match _data s with
  | None => load None s
  | Some _ => s
  end.

Definition save (s : state) : state :=
  let s := _check_validity s in
  if negb (app_in_unit_tests s)
  then platformcfg_save (_data s) s
  else s.

Definition get (r : pref_ref) (use_theme_data : bool) (s : state)
  : value * state :=
  get_body r use_theme_data (_check_validity s).

(** [set(descriptor, value)].  The debug line is written before
    [_check_validity] runs.  In the last branch [_data] is never [None]:
    [_check_validity] has just run. *)
Definition set (r : pref_ref) (value : value) (s : state) : state :=
  let s := with_log (log s ++ [LogDebug (key (deref s r)) value]) s in
  let s := _check_validity s in
  let descriptor := deref s r in
  match TEMPORARY_SETTINGS s with
  | Some t =>
    if py_ne (dict_get t (key descriptor) (VStr "FAKE VALUE")) value
    then _notify_listeners (key descriptor) value
           (with_temporary (Some (<[key descriptor := value]> t)) s)
    else s
  | None =>
    match _data s with
    | Some d =>
      if match d !! key descriptor with
         | None => true
         | Some old => py_ne old value
         end
      then _notify_listeners (key descriptor) value
             (with_data (Some (<[key descriptor := value]> d)) s)
      else s
    | None => s
    end
  end.

(** The mapping a reader finds once [_check_validity] has run. *)
Definition loaded_data (s : state) : gmap string value :=
  match _data s with
  | Some d => d
  | None =>
    if app_in_unit_tests s then ∅
    else match platform_store s with
         | Some d => d
         | None => ∅
         end
  end.

(** *** The order of sources as the specification words it

    These follow the specification, not the code; [get] is compared with
    them below. *)

(** The temporary-override layer, when temporary mode is active and the
    layer holds the key. *)
Definition source_temporary (s : state) (d : descriptor) : option value :=
  match TEMPORARY_SETTINGS s with
  | Some t => t !! key d
  | None => None
  end.

(** A value read from the persisted mapping, replaced by the failsafe when
    the descriptor declares an allowed set and the value is outside it. *)
Definition checked (d : descriptor) (v : value) : value :=
  match possible_values d with
  | Some pv => if py_in v pv then v else failsafe_value d
  | None => v
  end.

(** The persisted data mapping. *)
Definition source_data (s : state) (d : descriptor) : option value :=
  match _data s with
  | Some m => checked d <$> m !! key d
  | None => None
  end.

(** The platform backend, for a platform-specific descriptor. *)
Definition source_platform (d : descriptor) : option value :=
  if platformSpecific d then Some (platformcfg_get d) else None.

(** The theme/config file, when it contains the key. *)
Definition source_configfile (s : state) (d : descriptor) (use_theme_data : bool)
  : option value :=
  if contains (app_configfile s) (key d) use_theme_data
  then Some (cfg_get (app_configfile s) (key d) use_theme_data)
  else None.

(** The first source that answers, else the fallback. *)
Fixpoint first_hit (sources : list (option value)) (fallback : value) : value :=
  match sources with
  | [] => fallback
  | Some v :: _ => v
  | None :: rest => first_hit rest fallback
  end.

(** [set] called once for each pair of a list, in order. *)
Definition set_all (ops : list (pref_ref * value)) (s : state) : state :=
  foldl (fun s op => set op.1 op.2 s) s ops.

End WithCollaborators.

End Config.

(** ** [tv/lib/frontends/widgets/itemlistcontroller.py] *)

Module ItemListController.

(** *** Exceptions *)

Inductive exn : Type :=
  | KeyError.

(** What a call gives back: a value, or a raised exception. *)
Inductive result (A : Type) : Type :=
  | Ok (a : A)
  | Raise (e : exn).

Arguments Ok {A} a.
Arguments Raise {A} e.

#[global] Instance result_ret : MRet result := fun A a => Ok a.

#[global] Instance result_bind : MBind result := fun A B f m =>
  match m with
  | Ok a => f a
  | Raise e => Raise e
  end.

(** [try: ... except KeyError: handler]. *)
Definition except_KeyError {A : Type} (body : result A) (handler : A) : result A :=
  match body with
  | Ok a => Ok a
  | Raise KeyError => Ok handler
  end.

(** *** The item list and the item views the controller works on *)

(** An [ItemInfo]; the controller code modelled here reads its [id] and
    its [state]. *)
Record ItemInfo : Type := mkItemInfo {
  id : nat;
  state : string
}.

(** A row handle of the widget toolkit. *)
Definition iter : Type := nat.

Record row : Type := Row {
  row_iter : iter;
  row_info : ItemInfo
}.

(** Modelled from the spec: [itemlist.ItemList] (the "in-memory
    item-tracking model") is missing from the sources.  It is the ordered
    list of its rows; [get_item] and [get_iter] look an item up by id and
    raise [KeyError] for an id that is not in the list, which is what the
    [except KeyError] clauses of their callers expect ("lookup failures when
    an item has been removed from the underlying model"). *)
Definition ItemList : Type := list row.

(** The first row with the given item id, [KeyError] when there is none. *)
Definition find_row (il : ItemList) (item_id : nat) : result row :=
  match List.find (fun r => Nat.eqb (id (row_info r)) item_id) il with
  | Some r => Ok r
  | None => Raise KeyError
  end.

(** Modelled from the spec: [ItemList.get_item(id)], the info of the item,
    or [KeyError]. *)
Definition get_item (il : ItemList) (item_id : nat) : result ItemInfo :=
  r ← find_row il item_id; mret (row_info r).

(** Modelled from the spec: [ItemList.get_iter(id)], the row handle of the
    item, or [KeyError]. *)
Definition get_iter (il : ItemList) (item_id : nat) : result iter :=
  r ← find_row il item_id; mret (row_iter r).

(** Modelled from the spec: [model[i][0]] for the model the views share
    with the item list, the info of the row a handle points to. *)
Definition model_info (il : ItemList) (i : iter) : result ItemInfo :=
  match List.find (fun r => Nat.eqb (row_iter r) i) il with
  | Some r => Ok (row_info r)
  | None => Raise KeyError
  end.

(** An item leaves the model. *)
Definition remove_item (item_id : nat) (il : ItemList) : ItemList :=
  List.filter (fun r => negb (Nat.eqb (id (row_info r)) item_id)) il.

(** The ids of the items in the list. *)
Definition item_ids (il : ItemList) : list nat :=
  (fun r => id (row_info r)) <$> il.

(** Modelled from the spec: the item views ([itemlistwidgets.ListView] and
    [StandardView], "toolkit bindings") are missing from the sources.  A
    view holds its selection and counts the [start_bulk_change] and
    [model_changed] calls it has received. *)
Record view : Type := View {
  selection : list iter;
  bulk_changes : nat;
  model_changes : nat
}.

Definition view_set_selection (iters : list iter) (v : view) : view :=
  View iters (bulk_changes v) (model_changes v).

Definition view_unselect_all (v : view) : view :=
  View [] (bulk_changes v) (model_changes v).

Definition view_start_bulk_change (v : view) : view :=
  View (selection v) (S (bulk_changes v)) (model_changes v).

Definition view_model_changed (v : view) : view :=
  View (selection v) (bulk_changes v) (S (model_changes v)).

(** *** Sort keys *)

(** A sorter of [itemlist.SORT_KEY_MAP]: its class attribute [KEY] and what
    [is_ascending()] returns. *)
Record sorter : Type := Sorter {
  KEY : string;
  is_ascending : bool
}.

Definition parse_sort_key (key : string) : string * bool :=
  match key with
  | String "-"%char column => (column, false)
  | _ => (key, true)
  end.

(** [unicode(sorter.KEY)] is the key itself. *)
Definition make_sort_key (sorter : sorter) : string :=
  let key := KEY sorter in
  if is_ascending sorter then key else String "-"%char key.

(** [key.startswith('-')]. *)
Definition startswith_dash (key : string) : bool :=
  match key with
  | String "-"%char _ => true
  | _ => false
  end.

(** *** [AnimationManager] *)

(** A call [timer.add(delay, self._do_iteration, item_id, repeat_delay)]
    that has not fired yet.  Delays are seconds, as exact fractions. *)
Record timer_call : Type := TimerCall {
  timer_delay : Qc;
  timer_item_id : nat;
  timer_repeat_delay : Qc
}.

(** The methods a subclass of [AnimationManager] defines or overrides.  The
    two delays have no default (the base class raises
    [NotImplementedError]).  The hooks work on the manager's item list;
    [continue_animation] also returns a value. *)
Class AnimationHooks : Type := {
  initial_delay : ItemInfo -> Qc;
  repeat_delay : ItemInfo -> Qc;
  start_animation : ItemInfo -> ItemList -> ItemList;
  continue_animation : ItemInfo -> ItemList -> value * ItemList;
  finish_animation : ItemInfo -> ItemList -> ItemList
}.

(** The manager's attributes, and the timer calls it has pending.  The item
    list and the views are the controller's own objects. *)
Record AnimationManager : Type := Manager {
  currently_animating : gset nat;
  item_list : ItemList;
  item_views : list view;
  timers : list timer_call
}.

(** [AnimationManager(item_list, item_views)]. *)
Definition new_AnimationManager (il : ItemList) (views : list view)
  : AnimationManager :=
  Manager ∅ il views [].

(** Modelled from the spec: [timer.add] (platform widget code) is missing
    from the sources.  It registers one call of the function, made once
    after the delay; [_do_iteration] adds a new timer each time it wants
    to run again. *)
Definition timer_add (delay : Qc) (item_id : nat) (repeat_delay : Qc)
    (m : AnimationManager) : AnimationManager :=
  Manager (currently_animating m) (item_list m) (item_views m)
          (timers m ++ [TimerCall delay item_id repeat_delay]).

(** [s.remove(x)] raises [KeyError] when [x] is not in [s]. *)
Definition set_remove (x : nat) (s : gset nat) : result (gset nat) :=
  if decide (x ∈ s) then Ok (s ∖ {[x]}) else Raise KeyError.

Section WithHooks.

Context {hooks : AnimationHooks}.

Definition start (item_info : ItemInfo) (m : AnimationManager)
  : AnimationManager :=
  if decide (id item_info ∉ currently_animating m)
  then
    let m := Manager (currently_animating m ∪ {[id item_info]})
                     (item_list m) (item_views m) (timers m) in
    let m := Manager (currently_animating m)
                     (start_animation item_info (item_list m))
                     (item_views m) (timers m) in
    timer_add (initial_delay item_info) (id item_info)
              (repeat_delay item_info) m
  else m.

Definition _do_iteration (item_id : nat) (repeat_delay : Qc)
    (m : AnimationManager) : result AnimationManager :=
  match get_item (item_list m) item_id with
  | Raise KeyError =>
    animating ← set_remove item_id (currently_animating m);
    mret (Manager animating (item_list m) (item_views m) (timers m))
  | Ok item_info =>
    let '(rv, il) := continue_animation item_info (item_list m) in
    m ← (if py_ne rv (VBool false)
         then mret (timer_add repeat_delay item_id repeat_delay
                      (Manager (currently_animating m) il (item_views m)
                               (timers m)))
         else animating ← set_remove item_id (currently_animating m);
              mret (Manager animating (finish_animation item_info il)
                            (item_views m) (timers m)));
    mret (Manager (currently_animating m) (item_list m)
                  (view_model_changed <$> item_views m) (timers m))
  end.

(** The toolkit fires the pending timer call at position [n]: the call
    leaves the pending ones and [_do_iteration] runs with its arguments. *)
Definition fire (n : nat) (m : AnimationManager) : option (result AnimationManager) :=
  t ← timers m !! n;
  Some (_do_iteration (timer_item_id t) (timer_repeat_delay t)
          (Manager (currently_animating m) (item_list m) (item_views m)
                   (delete n (timers m)))).

(** The iteration for [item_id] ends its chain: the item has left the
    list, or [continue_animation] returns something equal to [False]. *)
Definition iteration_stops (item_id : nat) (m : AnimationManager) : bool :=
  match get_item (item_list m) item_id with
  | Raise KeyError => true
  | Ok item_info =>
    py_eq (continue_animation item_info (item_list m)).1 (VBool false)
  end.

(** What can happen to a manager: [start] is called, a pending timer fires
    and its iteration returns, or the owners of the item list change it. *)
Inductive step : AnimationManager -> AnimationManager -> Prop :=
  | step_start item_info m :
      step m (start item_info m)
  | step_fire n m m' :
      fire n m = Some (Ok m') ->
      step m m'
  | step_items il m :
      step m (Manager (currently_animating m) il (item_views m) (timers m)).

(** The states a manager reaches from its construction. *)
Inductive reachable : AnimationManager -> Prop :=
  | reachable_new il views :
      reachable (new_AnimationManager il views)
  | reachable_step m m' :
      reachable m -> step m m' -> reachable m'.

End WithHooks.

(** The ids that have a timer call pending. *)
Definition pending_ids (m : AnimationManager) : list nat :=
  timer_item_id <$> timers m.

(** Each animating id has one pending timer call and nothing else has one. *)
Definition one_chain_each (m : AnimationManager) : Prop :=
  NoDup (pending_ids m) /\
  forall item_id, item_id ∈ currently_animating m <-> item_id ∈ pending_ids m.

Section Throbber.

(** [ItemList.update_throbber] and [ItemList.finish_throbber] are defined
    outside this module. *)
Variable update_throbber : nat -> ItemList -> ItemList.
Variable finish_throbber : nat -> ItemList -> ItemList.

(** [ThrobberAnimationManager]; a method without [return] returns [None]. *)
#[local] Instance ThrobberAnimationManager : AnimationHooks := {
  initial_delay := fun _ => Q2Qc (2 # 10);
  repeat_delay := fun _ => Q2Qc (2 # 10);
  start_animation := fun _ il => il;
  continue_animation := fun item_info il =>
    if String.eqb (state item_info) "downloading"
    then (VNone, update_throbber (id item_info) il)
    else (VBool false, finish_throbber (id item_info) il);
  finish_animation := fun _ il => il
}.

End Throbber.

(** *** [ItemListController] *)

(** The attributes of a controller that selection restoring and the
    change handlers use.  [views] maps a view type to its view;
    [item_list] is [self.item_tracker.item_list]; [soft_failures] collects
    the calls to [app.widgetapp.handle_soft_failure]. *)
Record controller : Type := Controller {
  views : gmap string view;
  selected_view : string;
  ctl_item_list : ItemList;
  _selection_to_restore : option (list nat);
  soft_failures : list string
}.

Definition with_views (x : gmap string view) (c : controller) : controller :=
  Controller x (selected_view c) (ctl_item_list c) (_selection_to_restore c)
             (soft_failures c).

Definition with_selection_to_restore (x : option (list nat)) (c : controller)
  : controller :=
  Controller (views c) (selected_view c) (ctl_item_list c) x (soft_failures c).

(** [self.views[self.selected_view]]. *)
Definition get_current_item_view (c : controller) : result view :=
  match views c !! selected_view c with
  | Some v => Ok v
  | None => Raise KeyError
  end.

(** A method call on [self.current_item_view] that changes the view. *)
Definition on_current_item_view (f : view -> view) (c : controller)
  : result controller :=
  v ← get_current_item_view c;
  mret (with_views (<[selected_view c := f v]> (views c)) c).

(** [[f(x) for x in l]] where [f] can raise. *)
Fixpoint for_each {A B : Type} (f : A -> result B) (l : list A) : result (list B) :=
  match l with
  | [] => Ok []
  | x :: l' => y ← f x; ys ← for_each f l'; mret (y :: ys)
  end.

Definition get_selection (c : controller) : result (list ItemInfo) :=
  item_view ← get_current_item_view c;
  for_each (model_info (ctl_item_list c)) (selection item_view).

Definition get_selected_ids (c : controller) : result (list nat) :=
  infos ← get_selection c; mret (map id infos).

(** The loop of [restore_selected_ids]: the iters found so far, extended
    for each id the item list still has. *)
Fixpoint restore_loop (il : ItemList) (selected_ids : list nat) (iters : list iter)
  : result (list iter) :=
  match selected_ids with
  | [] => Ok iters
  | id_ :: rest =>
    iters ← except_KeyError (it ← get_iter il id_; mret (iters ++ [it])) iters;
    restore_loop il rest iters
  end.

Definition restore_selected_ids (selected_ids : list nat) (c : controller)
  : result controller :=
  iters ← restore_loop (ctl_item_list c) selected_ids [];
  on_current_item_view (view_set_selection iters) c.

Definition item_list_will_change (c : controller) : result controller :=
  ids ← get_selected_ids c;
  on_current_item_view view_unselect_all (with_selection_to_restore (Some ids) c).

Definition start_bulk_change (c : controller) : controller :=
  with_views (view_start_bulk_change <$> views c) c.

Definition send_model_changed (c : controller) : result controller :=
  let c := with_views (view_model_changed <$> views c) c in
  match _selection_to_restore c with
  | Some ids =>
    c ← restore_selected_ids ids c;
    mret (with_selection_to_restore None c)
  | None =>
    Ok (Controller (views c) (selected_view c) (ctl_item_list c)
                   (_selection_to_restore c)
                   (soft_failures c ++ ["send_model_changed()"]))
  end.

(** The base class hook does nothing. *)
Definition on_items_will_change (added changed : list ItemInfo)
    (removed : list nat) (c : controller) : result controller :=
  Ok c.

Definition handle_items_will_change (added changed : list ItemInfo)
    (removed : list nat) (c : controller) : result controller :=
  c ← item_list_will_change c;
  let c := if (100 <? length added + length removed)%nat
           then start_bulk_change c
           else c in
  on_items_will_change added changed removed c.

End ItemListController.

(** ** Small installations used as examples *)

Module Examples.

Import Config.

(** A config file that contains nothing. *)
Definition empty_configfile : AppConfig :=
  {| contains := fun _ _ => false; cfg_get := fun _ _ => VNone |}.

Definition build_configfile (theme : option string) : AppConfig :=
  empty_configfile.

(** A platform backend that answers with the declared default. *)
Definition platform_default (d : descriptor) : value := default d.

Definition pref_platform : descriptor :=
  Pref "appPlatform" (VStr "linux") false None VNone.

Definition pref_serial : descriptor :=
  Pref "appSerial" (VStr "0") false None VNone.

(** A preference with a declared allowed set. *)
Definition pref_mode : descriptor :=
  Pref "resumeMode" (VStr "auto") false
       (Some [VStr "auto"; VStr "manual"]) (VStr "auto").

(** A free-form string preference. *)
Definition pref_name : descriptor :=
  Pref "name" (VStr "") false None VNone.

(** Loaded, nothing stored, temporary mode off, one callback registered. *)
Definition loaded_state : state :=
  State (Some ∅) None {[7%nat]} empty_configfile false pref_serial None [] [].

(** Not loaded yet; the platform store holds a mode outside the allowed
    set. *)
Definition unloaded_state : state :=
  State None None ∅ empty_configfile false pref_serial
        (Some {["resumeMode" := VStr "never"]}) [] [].

Import ItemListController.

(** Two items on display in two views; the first row is selected in the
    list view. *)
Definition two_items : ItemList :=
  [Row 10%nat (mkItemInfo 1%nat "downloading");
   Row 11%nat (mkItemInfo 2%nat "new")].

Definition two_views : controller :=
  Controller {["list" := View [10%nat] 0%nat 0%nat;
               "standard" := View [] 0%nat 0%nat]}
             "list" two_items None [].

(** A throbber manager whose item list ignores throbber updates. *)
Definition throbber_hooks : AnimationHooks :=
  ThrobberAnimationManager (fun _ il => il) (fun _ il => il).

End Examples.

(** ** More of [itemlistcontroller.py] *)

Module ItemListControllerMore.

Import ItemListController.

(** *** Sorters *)

(** [d[k]] on a dictionary. *)
Definition dict_item {K A : Type} `{Countable K} (d : gmap K A) (k : K)
  : result A :=
  match d !! k with
  | Some x => Ok x
  | None => Raise KeyError
  end.

Section WithSortTables.

(** [itemlist.SORT_KEY_MAP] and [WidgetStateStore.DEFAULT_SORT_COLUMN] are
    defined outside this module.  A sorter class is known by its [KEY];
    calling the class with [ascending] gives the sorter. *)
Variable SORT_KEY_MAP : gmap string string.
Variable DEFAULT_SORT_COLUMN : gmap string string.

(** [make_sorter(column, ascending)] of a controller of type [typ]. *)
Definition make_sorter (typ : string) (column : string) (ascending : bool)
  : result sorter :=
  match dict_item SORT_KEY_MAP column with
  | Ok cls => Ok (Sorter cls ascending)
  | Raise KeyError =>
    column ← dict_item DEFAULT_SORT_COLUMN typ;
    let '(column, ascending) := parse_sort_key column in
    cls ← dict_item SORT_KEY_MAP column;
    mret (Sorter cls ascending)
  end.

(** [get_sorter()]; [sort_key] is what
    [app.widget_state.get_sort_state(self.type, self.id)] returns. *)
Definition get_sorter (typ : string) (sort_key : string) : result sorter :=
  let '(column, ascending) := parse_sort_key sort_key in
  make_sorter typ column ascending.

End WithSortTables.

(** *** The item list changes under the controller *)

(** The item tracker replaces the contents of [self.item_list]. *)
Definition with_item_list (il : ItemList) (c : controller) : controller :=
  Controller (views c) (selected_view c) il (_selection_to_restore c)
             (soft_failures c).

(** *** Key presses *)

(** The messages of [miro.messages] that the code modelled here sends to
    the backend, each with the item id it carries. *)
Inductive message : Type :=
  | CancelDownload (item_id : nat)
  | StopUpload (item_id : nat).

(** The loop of [handle_escape]: [handled] so far and the messages sent so
    far. *)
Fixpoint escape_loop (selection : list ItemInfo) (handled : bool)
    (sent : list message) : bool * list message :=
  match selection with
  | [] => (handled, sent)
  | info :: rest =>
    if String.eqb (state info) "downloading"
    then escape_loop rest true (sent ++ [CancelDownload (id info)])
    else if String.eqb (state info) "uploading"
    then escape_loop rest true (sent ++ [StopUpload (id info)])
    else escape_loop rest handled sent
  end.

(** [handle_escape()]: what it returns, and the messages sent to the
    backend after those in [sent]. *)
Definition handle_escape (c : controller) (sent : list message)
  : result (bool * list message) :=
  selection ← get_selection c;
  mret (escape_loop selection false sent).

(** *** Playing items *)

(** The attributes of an [ItemInfo] that playing reads, beyond [id] and
    [state]. *)
Class ItemAttributes : Type := {
  is_playable : ItemInfo -> bool;
  is_container_item : ItemInfo -> bool
}.

(** The calls on [app.playback_manager] and [app.display_manager] that
    playing makes.  [playback_start] leaves out the item tracker, which is
    the controller's own. *)
Inductive call : Type :=
  | playback_stop
  | push_folder_contents_display (info : ItemInfo) (start_playing : bool)
  | playback_start (start_id : option nat) (presentation_mode : string)
                   (force_resume : bool)
  | playback_set_shuffle (shuffle : bool)
  | playback_set_repeat (repeat : bool).

(** A controller with its [_playing_items] flag and the calls it has made. *)
Record player : Type := Player {
  ctl : controller;
  _playing_items : bool;
  calls : list call
}.

(** Modelled from the spec: [model.index_of_id(id)] of the item list's
    model is missing from the sources; it is the position of the item in
    the list, [KeyError] when the item is not there. *)
Fixpoint index_of_id (il : ItemList) (item_id : nat) : result nat :=
  match il with
  | [] => Raise KeyError
  | r :: il' =>
    if Nat.eqb (id (row_info r)) item_id then Ok 0%nat
    else i ← index_of_id il' item_id; mret (S i)
  end.

(** One step of a stable sort by key: [p] goes before the first element
    whose key is not smaller. *)
Fixpoint insert_by_key (p : nat * nat) (l : list (nat * nat))
  : list (nat * nat) :=
  match l with
  | [] => [p]
  | q :: l' =>
    if (p.1 <=? q.1)%nat then p :: q :: l' else q :: insert_by_key p l'
  end.

(** [l.sort(key=f)]: the keys are computed first, then the list is sorted
    by key, equal keys staying in their order. *)
Definition sort_by_key (f : nat -> result nat) (l : list nat)
  : result (list nat) :=
  keys ← for_each f l;
  mret ((foldr insert_by_key [] (zip keys l)).*2).

Section WithPlayback.

Context {attrs : ItemAttributes}.

(** What [app.widget_state.get_shuffle] and [get_repeat] return for this
    controller. *)
Variable shuffle : bool.
Variable repeat : bool.

(** [can_play_items()]: some info of [model.info_list()] is playable. *)
Definition can_play_items (c : controller) : bool :=
  existsb (fun r => is_playable (row_info r)) (ctl_item_list c).

(** [_play_item_list(start_id, presentation_mode, force_resume)].
    Modelled from the spec: [model.get_info(id)] is missing from the
    sources; like [get_item] it gives the info of the item or raises
    [KeyError], which is what [on_resume_playing] catches from it. *)
Definition _play_item_list (start_id : option nat) (presentation_mode : string)
    (force_resume : bool) (p : player) : result player :=
  start_info ← match start_id with
               | None => Ok None
               | Some i => info ← get_item (ctl_item_list (ctl p)) i;
                           mret (Some info)
               end;
  if bool_decide (start_info = None) && negb (can_play_items (ctl p))
  then Ok p
  else
    let p := Player (ctl p) (_playing_items p) (calls p ++ [playback_stop]) in
    match start_info with
    | Some info =>
      if is_container_item info
      then Ok (Player (ctl p) (_playing_items p)
                      (calls p ++ [push_folder_contents_display info true]))
      else Ok (Player (ctl p) true
                      (calls p ++ [playback_start start_id presentation_mode
                                                  force_resume;
                                   playback_set_shuffle shuffle;
                                   playback_set_repeat repeat]))
    | None =>
      Ok (Player (ctl p) true
                 (calls p ++ [playback_start start_id presentation_mode
                                             force_resume;
                              playback_set_shuffle shuffle;
                              playback_set_repeat repeat]))
    end.

(** [play_selection(presentation_mode, force_resume)].  With two or more
    items selected the sorted list is not empty, so [selected_ids[0]]
    exists and the last branch is never taken. *)
Definition play_selection (presentation_mode : string) (force_resume : bool)
    (p : player) : result player :=
  selection ← get_selection (ctl p);
  start_id ← match selection with
             | [] => Ok None
             | [info] => Ok (Some (id info))
             | _ =>
               selected_ids ← sort_by_key (index_of_id (ctl_item_list (ctl p)))
                                          (map id selection);
               match selected_ids with
               | first :: _ => Ok (Some first)
               | [] => Raise KeyError
               end
             end;
  _play_item_list start_id presentation_mode force_resume p.

Definition resume_play_selection (presentation_mode : string) (p : player)
  : result player :=
  play_selection presentation_mode true p.

Definition play_items (presentation_mode : string) (force_resume : bool)
    (p : player) : result player :=
  _play_item_list None presentation_mode force_resume p.

(** [on_resume_playing(titlebar)]; [last_played_id] is what
    [app.widget_state.get_last_played_item_id(self.type, self.id)]
    returns, and [warnings] collects the [logging.warn] lines.  The id 0
    is false in [if last_played_id:]. *)
Definition on_resume_playing (last_played_id : option nat) (p : player)
    (warnings : list string) : result (player * list string) :=
  match last_played_id with
  | None =>
    Ok (p, warnings ++ ["Resume playing clicked, but last_played_id is None"])
  | Some i =>
    let found : result bool :=
      if negb (Nat.eqb i 0)
      then except_KeyError
             (info ← get_item (ctl_item_list (ctl p)) i; mret true) false
      else Ok true in
    found ← found;
    if found : bool
    then p ← _play_item_list last_played_id "fit-to-bounds" true p;
         mret (p, warnings)
    else Ok (p, warnings
                  ++ ["Resume playing clicked, but last_played_info not found"])
  end.

End WithPlayback.

End ItemListControllerMore.

(** ** [ItemListControllerManager] *)

Module ControllerManager.

Import ItemListController.

#[export] Instance value_countable : Countable value.
Proof.
  refine (inj_countable'
            (fun v => match v with
                      | VNone => inl ()
                      | VBool b => inr (inl b)
                      | VInt n => inr (inr (inl n))
                      | VStr s => inr (inr (inr s))
                      end)
            (fun x => match x with
                      | inl _ => VNone
                      | inr (inl b) => VBool b
                      | inr (inr (inl n)) => VInt n
                      | inr (inr (inr s)) => VStr s
                      end) _).
  by intros [].
Defined.

(** A controller as the manager sees it: the object's identity, its [type]
    and [id], and [device.id], which is read for device controllers
    only. *)
Record controller_ref : Type := ControllerRef {
  ident : nat;
  type : string;
  id : value;
  device_id : value
}.

#[export] Instance controller_ref_eq_dec : EqDecision controller_ref.
Proof. solve_decision. Defined.

(** The methods the manager calls on controllers. *)
Inductive method : Type :=
  | on_displayed
  | no_longer_displayed
  | controller_focus_view
  | controller_play_selection (presentation_mode : string)
  | controller_update_metadata_progress (remaining eta total : value).

(** The key of the [controllers] dictionary: a pair whose first part is a
    string or [None]. *)
Definition key : Type := option string * value.

(** The manager's attributes, the method calls it has made on controllers
    (with the identity of the controller called) and the number of
    warnings it has logged. *)
Record manager : Type := mkManager {
  displayed : option controller_ref;
  controllers : gmap key controller_ref;
  method_calls : list (nat * method);
  warnings : nat
}.

(** [ItemListControllerManager()]. *)
Definition new_manager : manager := mkManager None ∅ [] 0.

Definition call (c : controller_ref) (f : method) (m : manager) : manager :=
  mkManager (displayed m) (controllers m) (method_calls m ++ [(ident c, f)])
          (warnings m).

Definition focus_view (m : manager) : bool * manager :=
  match displayed m with
  | Some c => (true, call c controller_focus_view m)
  | None => (false, m)
  end.

Definition controller_displayed (item_list_controller : controller_ref)
    (m : manager) : manager :=
  let m := mkManager (Some item_list_controller) (controllers m)
                   (method_calls m) (warnings m) in
  call item_list_controller on_displayed m.

(** [a is not b], where [b] can be [None]. *)
Definition is_not (a : controller_ref) (b : option controller_ref) : bool :=
  match b with
  | Some b => negb (Nat.eqb (ident a) (ident b))
  | None => true
  end.

Definition controller_no_longer_displayed (item_list_controller : controller_ref)
    (m : manager) : manager :=
  let m := if is_not item_list_controller (displayed m)
           then mkManager (displayed m) (controllers m) (method_calls m)
                        (S (warnings m))
           else match displayed m with
                | Some c => call c no_longer_displayed m
                | None => m
                end in
  mkManager None (controllers m) (method_calls m) (warnings m).




Definition play_selection (presentation_mode : string) (m : manager) : manager :=
  match displayed m with
  | Some c => call c (controller_play_selection presentation_mode) m
  | None => m
  end.

Definition undisplay_controller (m : manager) : manager :=
  match displayed m with
  | Some c => controller_no_longer_displayed c m
  | None => m
  end.


End ControllerManager.

(** ** More small examples *)

Module MoreExamples.

Import ItemListController ItemListControllerMore Examples.

Definition sort_key_map : gmap string string :=
  {["name" := "name"; "date" := "date"]}.

Definition default_sort_column : gmap string string :=
  {["videos" := "-date"]}.

(** Both rows selected in the list view, the second row first. *)
Definition both_selected : controller :=
  Controller {["list" := View [11%nat; 10%nat] 0%nat 0%nat]}
             "list" two_items None [].

(** Every item is playable; item 1 is a folder. *)
Definition one_folder : ItemAttributes :=
  {| is_playable := fun _ => true;
     is_container_item := fun info => Nat.eqb (id info) 1 |}.

(** A feed and a playlist that happen to have the same id. *)
Definition feed_5 : ControllerManager.controller_ref :=
  ControllerManager.ControllerRef 1 "feed" (VInt 5) VNone.

Definition playlist_5 : ControllerManager.controller_ref :=
  ControllerManager.ControllerRef 2 "playlist" (VInt 5) VNone.

End MoreExamples.

(** * Properties *)

(** ** Python equality *)

Module PyFacts.





(** On strings [==] is plain equality. *)
Lemma py_eq_str s v : py_eq (VStr s) v = true <-> v = VStr s.
Proof.
  unfold py_eq. destruct v; simpl; rewrite ?bool_decide_eq_true;
    split; intros; try done; congruence.
Qed.

End PyFacts.

(** ** The configuration store *)

Module ConfigFacts.

Import Config PyFacts.

Section WithCollaborators.

Variable APP_PLATFORM : descriptor.
Variable platformcfg_get : descriptor -> value.
Variable new_AppConfig : option string -> AppConfig.

#[local] Abbreviation get_body := (get_body platformcfg_get).
#[local] Abbreviation load := (load APP_PLATFORM platformcfg_get new_AppConfig).
#[local] Abbreviation _check_validity := (_check_validity APP_PLATFORM platformcfg_get new_AppConfig).
#[local] Abbreviation get := (get APP_PLATFORM platformcfg_get new_AppConfig).
#[local] Abbreviation set := (set APP_PLATFORM platformcfg_get new_AppConfig).
#[local] Abbreviation save := (save APP_PLATFORM platformcfg_get new_AppConfig).
#[local] Abbreviation set_all := (set_all APP_PLATFORM platformcfg_get new_AppConfig).

(** *** What [get_body], [load] and [_check_validity] leave alone *)

(** Notifying queues one task per registered callback, after the tasks
    already waiting, and touches nothing else. *)
Lemma notify_listeners_eq k v s :
  _notify_listeners k v s
  = with_idle_queue
      (idle_queue s
         ++ map (fun cb => IdleTask cb (k, v)) (elements (_callbacks s))) s.
Proof.
  unfold _notify_listeners.
  assert (H : forall l s,
            foldl (fun s cb => eventloop_add_idle cb (k, v) s) s l
            = with_idle_queue
                (idle_queue s ++ map (fun cb => IdleTask cb (k, v)) l) s).
  { induction l as [|cb l IH]; intros s0; simpl.
    - rewrite app_nil_r. by destruct s0.
    - rewrite IH. unfold eventloop_add_idle, with_idle_queue. simpl.
      by rewrite <- app_assoc. }
  apply H.
Qed.

(** [get_body] changes nothing but the log. *)
Lemma get_body_frame r u s :
  exists l, (get_body r u s).2 = with_log l s.
Proof.
  unfold Config.get_body.
  repeat case_match; simpl; eauto; exists (log s); by destruct s.
Qed.

Lemma load_fields theme s :
  _data (load theme s)
    = Some (if app_in_unit_tests s then ∅
            else match platform_store s with Some d => d | None => ∅ end) /\
  TEMPORARY_SETTINGS (load theme s) = TEMPORARY_SETTINGS s /\
  _callbacks (load theme s) = _callbacks s /\
  app_in_unit_tests (load theme s) = app_in_unit_tests s /\
  platform_store (load theme s) = platform_store s /\
  idle_queue (load theme s) = idle_queue s.
Proof.
  unfold Config.load.
  match goal with |- context [Config.get_body ?g ?r ?u ?x] =>
    destruct (get_body_frame r u x) as [l Hl];
    destruct (Config.get_body g r u x) as [v x'] eqn:Hg end.
  simpl in Hl. subst x'. simpl.
  clear Hg. destruct (app_in_unit_tests s) eqn:Hu; simpl; [done|].
  destruct (platform_store s) eqn:Hp; simpl; by rewrite ?Hp.
Qed.

Lemma check_validity_fields s :
  _data (_check_validity s) = Some (loaded_data s) /\
  TEMPORARY_SETTINGS (_check_validity s) = TEMPORARY_SETTINGS s /\
  _callbacks (_check_validity s) = _callbacks s /\
  app_in_unit_tests (_check_validity s) = app_in_unit_tests s /\
  platform_store (_check_validity s) = platform_store s /\
  idle_queue (_check_validity s) = idle_queue s.
Proof.
  unfold Config._check_validity, loaded_data.
  destruct (_data s) eqn:Hd; [done|].
  apply load_fields.
Qed.

(** Once loaded, [_check_validity] does nothing. *)
Lemma check_validity_loaded s d :
  _data s = Some d -> _check_validity s = s.
Proof. unfold Config._check_validity. by intros ->. Qed.

Lemma check_validity_idem s :
  _check_validity (_check_validity s) = _check_validity s.
Proof.
  destruct (check_validity_fields s) as [Hd _].
  by apply check_validity_loaded with (loaded_data s).
Qed.

(** *** The order of sources *)

(** An empty override layer answers nothing, so the truth test on
    [TEMPORARY_SETTINGS] selects the same answers as "temporary mode is
    active and the layer holds the key". *)
Lemma truthy_lookup s k :
  (if truthy (TEMPORARY_SETTINGS s)
   then TEMPORARY_SETTINGS s ≫= (fun t => t !! k)
   else None)
  = match TEMPORARY_SETTINGS s with Some t => t !! k | None => None end.
Proof.
  destruct (TEMPORARY_SETTINGS s) as [t|]; simpl; [|done].
  case_bool_decide as Ht; simpl; [|done].
  subst t. by rewrite lookup_empty.
Qed.

(** [get_body] is the first hit among the four sources, in the order
    override layer, persisted mapping, platform backend, config file. *)
Lemma get_body_first_hit r u s :
  (get_body r u s).1
  = first_hit [source_temporary s (deref s r);
               source_data s (deref s r);
               source_platform platformcfg_get (deref s r);
               source_configfile s (deref s r) u]
              (default (deref s r)).
Proof.
  unfold Config.get_body. rewrite truthy_lookup.
  unfold source_temporary, source_data, source_platform, source_configfile,
    checked.
  set (d := deref s r).
  destruct (TEMPORARY_SETTINGS s) as [t|]; simpl.
  - destruct (t !! key d); simpl; [done|].
    destruct (_data s) as [m|]; simpl.
    + destruct (m !! key d); simpl.
      * destruct (possible_values d); [|done].
        by destruct (py_in _ _).
      * by repeat case_match.
    + by repeat case_match.
  - destruct (_data s) as [m|]; simpl.
    + destruct (m !! key d); simpl.
      * destruct (possible_values d); [|done].
        by destruct (py_in _ _).
      * by repeat case_match.
    + by repeat case_match.
Qed.

(** C1.  For every descriptor, [get] returns the first answer among the
    sources taken in this order: the temporary-override layer (temporary
    mode active and the layer holds the key), the persisted data mapping,
    the platform backend when the descriptor is platform-specific, the
    theme/config file when it contains the key; when none answers it
    returns the descriptor's default.  The sources are read in the state
    [_check_validity] leaves. *)
Theorem get_source_order (r : pref_ref) (use_theme_data : bool) (s : state) :
  let s1 := _check_validity s in
  let d := deref s1 r in
  (get r use_theme_data s).1
  = first_hit [source_temporary s1 d;
               source_data s1 d;
               source_platform platformcfg_get d;
               source_configfile s1 d use_theme_data]
              (default d).
Proof. intros s1 d. unfold Config.get. apply get_body_first_hit. Qed.

(** *** What [set] does *)

(** The state in which [set] takes its decision: the debug line is logged
    and [_check_validity] has run. *)
#[local] Abbreviation ready r v s :=
  (_check_validity (with_log (log s ++ [LogDebug (key (deref s r)) v]) s)).

(** The tasks one notification adds to the idle queue. *)
#[local] Abbreviation tasks k v s :=
  (map (fun cb => IdleTask cb (k, v)) (elements (_callbacks s))).

(** The state a notification leaves. *)
#[local] Abbreviation notified k v s :=
  (with_idle_queue (idle_queue s ++ tasks k v s) s).

Lemma ready_fields r v s :
  _data (ready r v s) = Some (loaded_data s) /\
  TEMPORARY_SETTINGS (ready r v s) = TEMPORARY_SETTINGS s /\
  _callbacks (ready r v s) = _callbacks s /\
  app_in_unit_tests (ready r v s) = app_in_unit_tests s /\
  platform_store (ready r v s) = platform_store s /\
  idle_queue (ready r v s) = idle_queue s.
Proof. apply (check_validity_fields (with_log _ s)). Qed.

(** [set] in temporary mode. *)
Lemma set_temporary_branch r v s t :
  TEMPORARY_SETTINGS s = Some t ->
  set r v s =
    let s0 := ready r v s in
    let k := key (deref s0 r) in
    if py_ne (dict_get t k (VStr "FAKE VALUE")) v
    then notified k v (with_temporary (Some (<[k := v]> t)) s0)
    else s0.
Proof.
  intros Ht. cbv zeta. rewrite <- notify_listeners_eq. unfold Config.set.
  destruct (ready_fields r v s) as (_ & Ht0 & _).
  by rewrite Ht0, Ht.
Qed.

(** [set] outside temporary mode. *)
Lemma set_data_branch r v s :
  TEMPORARY_SETTINGS s = None ->
  set r v s =
    let s0 := ready r v s in
    let k := key (deref s0 r) in
    if match loaded_data s !! k with
       | None => true
       | Some old => py_ne old v
       end
    then notified k v
           (with_data (Some (<[k := v]> (loaded_data s))) s0)
    else s0.
Proof.
  intros Ht. cbv zeta. rewrite <- notify_listeners_eq. unfold Config.set.
  destruct (ready_fields r v s) as (Hd0 & Ht0 & _).
  by rewrite Ht0, Ht, Hd0.
Qed.


(** Outside temporary mode [set] stores and notifies exactly when the key
    was absent from the persisted mapping or mapped to a different value;
    the notification is one idle task per registered callback, carrying
    the key and the new value, and no callback runs inside [set]. *)
Lemma set_data_notifies r v s :
  TEMPORARY_SETTINGS s = None ->
  let s1 := set r v s in
  let k := key (deref s1 r) in
  (loaded_data s !! k = None \/
   (exists old, loaded_data s !! k = Some old /\ py_ne old v = true) ->
   _data s1 = Some (<[k := v]> (loaded_data s)) /\
   idle_queue s1 = idle_queue s ++ tasks k v s) /\
  ((exists old, loaded_data s !! k = Some old /\ py_eq old v = true) ->
   _data s1 = Some (loaded_data s) /\
   idle_queue s1 = idle_queue s).
Proof.
  intros Ht s1 k. subst s1 k. rewrite (set_data_branch r v s Ht). simpl.
  destruct (ready_fields r v s) as (Hd0 & Ht0 & Hc0 & _ & _ & Hq0).
  set (s0 := ready r v s) in *.
  set (c := match loaded_data s !! key (deref s0 r) with
            | None => true | Some old => py_ne old v end).
  assert (Hk : forall b : bool,
             key (deref (if b then notified (key (deref s0 r)) v
                 (with_data (Some (<[key (deref s0 r) := v]> (loaded_data s))) s0)
                 else s0) r) = key (deref s0 r)).
  { intros []; by destruct r. }
  rewrite Hk. subst c.
  split.
  - intros [Hn | (old & Ho & Hne)].
    + rewrite Hn. simpl. by rewrite Hq0, Hc0.
    + rewrite Ho, Hne. simpl. by rewrite Hq0, Hc0.
  - intros (old & Ho & Heq). rewrite Ho. unfold py_ne. rewrite Heq. simpl.
    by rewrite Hd0, Hq0.
Qed.


(** After [set] the descriptor has the key [set] wrote under, and the
    mapping is loaded. *)
Lemma set_fields r v s :
  deref (set r v s) r = deref (ready r v s) r /\
  app_configfile (set r v s) = app_configfile (ready r v s) /\
  exists d, _data (set r v s) = Some d.
Proof.
  destruct (ready_fields r v s) as (Hd0 & Ht0 & _).
  destruct (TEMPORARY_SETTINGS s) as [t|] eqn:Ht.
  - rewrite (set_temporary_branch r v s t Ht). simpl.
    case_match; simpl; repeat split; eauto; by destruct r.
  - rewrite (set_data_branch r v s Ht). simpl.
    case_match; simpl; repeat split; eauto; by destruct r.
Qed.

(** [get] right after [set] does not load again. *)
Lemma get_body_after_set r r' v u s :
  get r' u (set r v s) = get_body r' u (set r v s).
Proof.
  destruct (set_fields r v s) as (_ & _ & d & Hd).
  unfold Config.get. by rewrite (check_validity_loaded _ d Hd).
Qed.

(** *** Reading back what was written *)


(** *** Values outside the allowed set *)

(** C4, as amended.  For a descriptor with a declared allowed set, whenever
    the persisted data mapping holds a value for the key that is outside
    the set and the temporary-override layer does not hold the key, [get]
    logs a warning and returns the failsafe value. *)
Theorem get_failsafe (r : pref_ref) (use_theme_data : bool) (s : state)
    (pv : list value) (m : gmap string value) (bad : value) :
  let s1 := _check_validity s in
  let d := deref s1 r in
  possible_values d = Some pv ->
  _data s1 = Some m ->
  m !! key d = Some bad ->
  py_in bad pv = false ->
  source_temporary s1 d = None ->
  (get r use_theme_data s).1 = failsafe_value d /\
  log (get r use_theme_data s).2
    = log s1 ++ [LogWarn bad (key d) (failsafe_value d)].
Proof.
  intros s1 d Hpv Hm Hbad Hin Htemp.
  unfold Config.get, Config.get_body. fold s1 d.
  rewrite truthy_lookup. unfold source_temporary in Htemp.
  rewrite Htemp, Hm. simpl. rewrite Hbad, Hpv, Hin. by simpl.
Qed.

(** *** Temporary mode *)

(** One [set] in temporary mode: the mode stays on, the data mapping is
    what [_check_validity] finds, the platform store is not touched. *)
Lemma set_temporary_frame r v s :
  TEMPORARY_SETTINGS s <> None ->
  TEMPORARY_SETTINGS (set r v s) <> None /\
  _data (set r v s) = Some (loaded_data s) /\
  app_in_unit_tests (set r v s) = app_in_unit_tests s /\
  platform_store (set r v s) = platform_store s.
Proof.
  intros Hon. destruct (TEMPORARY_SETTINGS s) as [t|] eqn:Ht; [|done].
  rewrite (set_temporary_branch r v s t Ht). simpl.
  destruct (ready_fields r v s) as (Hd0 & Ht0 & _ & Hu0 & Hp0 & _).
  case_match; simpl; rewrite ?Ht0, ?Ht; done.
Qed.

Lemma loaded_data_eq s s' :
  _data s' = Some (loaded_data s) -> loaded_data s' = loaded_data s.
Proof. intros Hd. unfold loaded_data at 1. by rewrite Hd. Qed.

(** C5.  While temporary mode is active, calls to [set] leave the persisted
    data mapping as it is: the mode stays active, a loaded [_data] keeps
    its value (an unloaded one is loaded by [_check_validity] and gets
    nothing else), the platform store is untouched, and [save] afterwards
    persists what it would have persisted without the calls. *)
Theorem temporary_set_not_persisted (ops : list (pref_ref * value)) (s : state) :
  TEMPORARY_SETTINGS s <> None ->
  let s' := set_all ops s in
  TEMPORARY_SETTINGS s' <> None /\
  (forall d, _data s = Some d -> _data s' = Some d) /\
  loaded_data s' = loaded_data s /\
  platform_store s' = platform_store s /\
  platform_store (save s') = platform_store (save s).
Proof.
  intros Hon s'. subst s'.
  assert (H : TEMPORARY_SETTINGS (set_all ops s) <> None /\
              (forall d, _data s = Some d -> _data (set_all ops s) = Some d) /\
              loaded_data (set_all ops s) = loaded_data s /\
              app_in_unit_tests (set_all ops s) = app_in_unit_tests s /\
              platform_store (set_all ops s) = platform_store s).
  { revert s Hon. unfold Config.set_all.
    induction ops as [|[r v] ops IH]; intros s Hon; simpl; [done|].
    destruct (set_temporary_frame r v s Hon) as (Hon' & Hd & Hu & Hp).
    destruct (IH _ Hon') as (IH1 & IH2 & IH3 & IH4 & IH5).
    pose proof (loaded_data_eq s _ Hd) as Hl.
    repeat split; [done| |congruence..].
    intros d Hsd. apply IH2. rewrite Hd. f_equal.
    unfold loaded_data. by rewrite Hsd. }
  destruct H as (H1 & H2 & H3 & H4 & H5).
  repeat split; try done.
  unfold Config.save.
  destruct (check_validity_fields (set_all ops s)) as (Hd' & _ & _ & Hu' & Hp' & _).
  destruct (check_validity_fields s) as (Hd & _ & _ & Hu & Hp & _).
  rewrite Hu', Hu, H4.
  destruct (app_in_unit_tests s); simpl; congruence.
Qed.

(** *** Change callbacks *)

(** C6.  Registering and removing a change callback are idempotent:
    adding a callback twice is adding it once, removing it twice is
    removing it once, and removing a callback that is not registered
    changes nothing; both operations are total. *)
Theorem change_callback_idempotent (cb : callback) (s : state) :
  add_change_callback cb (add_change_callback cb s) = add_change_callback cb s /\
  remove_change_callback cb (remove_change_callback cb s)
    = remove_change_callback cb s /\
  (cb ∉ _callbacks s -> remove_change_callback cb s = s).
Proof.
  unfold add_change_callback, remove_change_callback, with_callbacks.
  destruct s as [d t cbs cf u a p q l]. simpl.
  repeat split.
  - f_equal. by rewrite <- (assoc_L (∪)), (idemp_L (∪)).
  - f_equal. apply difference_twice_L.
  - intros Hcb. f_equal. apply difference_disjoint_L.
    by apply disjoint_singleton_r.
Qed.

End WithCollaborators.

(** *** The theorems at work on a small installation *)

Import Examples.

#[local] Abbreviation ex_get :=
  (Config.get pref_platform platform_default build_configfile).
#[local] Abbreviation ex_set :=
  (Config.set pref_platform platform_default build_configfile).
#[local] Abbreviation ex_set_all :=
  (Config.set_all pref_platform platform_default build_configfile).
#[local] Abbreviation ex_save :=
  (Config.save pref_platform platform_default build_configfile).
#[local] Abbreviation ex_check :=
  (Config._check_validity pref_platform platform_default build_configfile).



(** C3 at the failing input: temporary mode is on, the layer is empty, a
    callback is registered, and [set] is called with "FAKE VALUE".  The key
    was absent, yet nothing is stored and no task is queued; any other
    string is stored and queues one task for the callback. *)
Theorem set_sentinel_skips_notification :
  let s := init_temporary loaded_state in
  let s1 := ex_set (PrefObj pref_name) (VStr "FAKE VALUE") s in
  let s2 := ex_set (PrefObj pref_name) (VStr "Miro") s in
  elements (_callbacks s) = [7%nat] /\
  TEMPORARY_SETTINGS s = Some ∅ /\
  TEMPORARY_SETTINGS s1 = Some ∅ /\
  idle_queue s1 = [] /\
  TEMPORARY_SETTINGS s2 = Some {["name" := VStr "Miro"]} /\
  idle_queue s2 = [IdleTask 7%nat ("name", VStr "Miro")].
Proof. repeat split; vm_compute; reflexivity. Qed.

(** C4 fails as stated.  The persisted mapping holds "never", which is
    outside the allowed set, but the temporary layer holds the key too:
    [get] returns the layer's value and logs nothing. *)
Lemma get_failsafe_counterexample :
  let d := pref_mode in
  let s := ex_set (PrefObj d) (VStr "manual")
             (init_temporary (ex_check unloaded_state)) in
  possible_values d = Some [VStr "auto"; VStr "manual"] /\
  _data s = Some {["resumeMode" := VStr "never"]} /\
  py_in (VStr "never") [VStr "auto"; VStr "manual"] = false /\
  (ex_get (PrefObj d) true s).1 = VStr "manual" /\
  (ex_get (PrefObj d) true s).1 <> failsafe_value d /\
  log (ex_get (PrefObj d) true s).2 = log s.
Proof. repeat split; vm_compute; congruence. Qed.

Lemma get_failsafe_witness :
  (ex_get (PrefObj pref_mode) true unloaded_state).1 = VStr "auto" /\
  log (ex_get (PrefObj pref_mode) true unloaded_state).2
    = [LogWarn (VStr "never") "resumeMode" (VStr "auto")].
Proof.
  apply (get_failsafe pref_platform platform_default build_configfile
           (PrefObj pref_mode) true unloaded_state
           [VStr "auto"; VStr "manual"]
           {["resumeMode" := VStr "never"]} (VStr "never"));
    vm_compute; reflexivity.
Defined.

Lemma temporary_set_not_persisted_witness :
  let ops := [(PrefObj pref_name, VStr "Miro"); (PrefObj pref_mode, VStr "manual")] in
  let s := init_temporary unloaded_state in
  TEMPORARY_SETTINGS s <> None /\
  loaded_data (ex_set_all ops s) = {["resumeMode" := VStr "never"]} /\
  platform_store (ex_save (ex_set_all ops s)) = platform_store (ex_save s).
Proof.
  intros ops s.
  assert (Hon : TEMPORARY_SETTINGS s <> None) by (vm_compute; congruence).
  destruct (temporary_set_not_persisted pref_platform platform_default
              build_configfile ops s Hon) as (_ & _ & Hl & _ & Hs).
  split; [exact Hon|]. split; [|exact Hs].
  rewrite Hl. vm_compute. reflexivity.
Defined.

Lemma change_callback_idempotent_witness :
  remove_change_callback 3%nat loaded_state = loaded_state.
Proof.
  apply (change_callback_idempotent 3%nat loaded_state).
  simpl. rewrite elem_of_singleton. lia.
Defined.

End ConfigFacts.

(** ** Item-list controllers *)

Module ItemListControllerFacts.

Import ItemListController PyFacts.

(** *** Lists with one position deleted *)

Lemma delete_middle {A} (l : list A) n x :
  l !! n = Some x ->
  exists l1 l2, l = l1 ++ x :: l2 /\ delete n l = l1 ++ l2.
Proof.
  intros Hn. exists (take n l), (drop (S n) l). split.
  - symmetry. by apply take_drop_middle.
  - apply delete_take_drop.
Qed.

(** *** Looking items up *)

Lemma find_row_present il item_id :
  item_id ∈ item_ids il ->
  exists r, find_row il item_id = Ok r /\ id (row_info r) = item_id.
Proof.
  unfold find_row, item_ids. induction il as [|r il IH]; simpl.
  - by intros ?%elem_of_nil.
  - intros [->|Hin]%elem_of_cons.
    + rewrite Nat.eqb_refl. eauto.
    + destruct (Nat.eqb_spec (id (row_info r)) item_id); eauto.
Qed.

Lemma find_row_absent il item_id :
  item_id ∉ item_ids il -> find_row il item_id = Raise KeyError.
Proof.
  unfold find_row, item_ids. induction il as [|r il IH]; simpl; [done|].
  intros Hin. apply not_elem_of_cons in Hin as [Hne Hin].
  destruct (Nat.eqb_spec (id (row_info r)) item_id); [done|]. by apply IH.
Qed.

(** An id that has been removed from the model is not found. *)
Lemma remove_item_absent item_id il :
  item_id ∉ item_ids (remove_item item_id il).
Proof.
  unfold item_ids, remove_item. induction il as [|r il IH]; simpl.
  - apply not_elem_of_nil.
  - destruct (Nat.eqb_spec (id (row_info r)) item_id) as [Heq|Hne]; simpl.
    + done.
    + apply not_elem_of_cons. split; [congruence|done].
Qed.

Lemma get_iter_absent il item_id :
  item_id ∉ item_ids il -> get_iter il item_id = Raise KeyError.
Proof. intros H. unfold get_iter. by rewrite find_row_absent. Qed.

Lemma get_item_absent il item_id :
  item_id ∉ item_ids il -> get_item il item_id = Raise KeyError.
Proof. intros H. unfold get_item. by rewrite find_row_absent. Qed.

Lemma get_iter_present il item_id :
  item_id ∈ item_ids il -> exists it, get_iter il item_id = Ok it.
Proof.
  intros (r & Hr & _)%find_row_present. unfold get_iter. rewrite Hr.
  by exists (row_iter r).
Qed.

(** *** The animation manager *)

Section WithHooks.

Context {hooks : AnimationHooks}.

Lemma one_chain_new il views : one_chain_each (new_AnimationManager il views).
Proof.
  split; simpl.
  - constructor.
  - intros x. unfold pending_ids. simpl. set_solver.
Qed.

Lemma one_chain_start item_info m :
  one_chain_each m -> one_chain_each (start item_info m).
Proof.
  intros [Hnd Hiff]. unfold start.
  destruct (decide (id item_info ∉ currently_animating m)) as [Hnew|]; [|done].
  unfold one_chain_each, pending_ids in *. simpl. rewrite fmap_app. simpl.
  split.
  - apply NoDup_app. repeat split; [done| |apply NoDup_singleton].
    intros x Hx ->%list_elem_of_singleton. by apply Hnew, Hiff.
  - intros x. rewrite elem_of_union, elem_of_app, Hiff. set_solver.
Qed.

Lemma one_chain_items il m :
  one_chain_each m ->
  one_chain_each (Manager (currently_animating m) il (item_views m) (timers m)).
Proof. done. Qed.

(** With one chain per id, the id of a timer that fires is animating and
    has no other timer pending. *)
Lemma fired_id m n t :
  one_chain_each m -> timers m !! n = Some t ->
  timer_item_id t ∈ currently_animating m /\
  NoDup (timer_item_id <$> delete n (timers m)) /\
  forall x, x ∈ timer_item_id <$> delete n (timers m)
            <-> x ∈ currently_animating m /\ x <> timer_item_id t.
Proof.
  intros [Hnd Hiff] Hn. unfold pending_ids in *.
  destruct (delete_middle _ _ _ Hn) as (l1 & l2 & Hl & ->).
  rewrite Hl in Hnd, Hiff. rewrite fmap_app in *. simpl in *.
  apply NoDup_app in Hnd as (Hnd1 & Hdisj & Hnd2).
  apply NoDup_cons in Hnd2 as [Hx Hnd2].
  split; [apply Hiff; set_solver|].
  split; [apply NoDup_app; repeat split; [done|set_solver|done]|].
  intros x. split.
  - intros Hin. split; [apply Hiff; set_solver|].
    intros ->. apply elem_of_app in Hin as [Hin|Hin]; [|done].
    apply (Hdisj _ Hin). set_solver.
  - intros [Hin Hne]. apply Hiff in Hin. set_solver.
Qed.

(** What a firing timer does to a manager that has one chain per id: the
    iteration returns; the id leaves the animating set and gets no new
    timer when the iteration stops, and otherwise stays with one new timer
    appended. *)
Lemma fire_one_chain m n t :
  one_chain_each m -> timers m !! n = Some t ->
  exists m',
    fire n m = Some (Ok m') /\
    currently_animating m'
      = (if iteration_stops (timer_item_id t) m
         then currently_animating m ∖ {[timer_item_id t]}
         else currently_animating m) /\
    timers m'
      = (if iteration_stops (timer_item_id t) m
         then delete n (timers m)
         else delete n (timers m)
                ++ [TimerCall (timer_repeat_delay t) (timer_item_id t)
                              (timer_repeat_delay t)]).
Proof.
  intros Hinv Hn. destruct (fired_id m n t Hinv Hn) as (Hin & _ & _).
  unfold fire, iteration_stops. rewrite Hn. simpl.
  unfold _do_iteration. simpl.
  destruct (get_item (item_list m) (timer_item_id t)) as [info|[]]; simpl.
  - destruct (continue_animation info (item_list m)) as [rv il]. simpl.
    unfold py_ne. destruct (py_eq rv (VBool false)); simpl.
    + unfold set_remove. rewrite decide_True by done. simpl. eauto.
    + eauto.
  - unfold set_remove. rewrite decide_True by done. simpl. eauto.
Qed.

Lemma one_chain_fire m n m' :
  one_chain_each m -> fire n m = Some (Ok m') -> one_chain_each m'.
Proof.
  intros Hinv Hf.
  destruct (timers m !! n) as [t|] eqn:Hn;
    [|unfold fire in Hf; by rewrite Hn in Hf].
  destruct (fire_one_chain m n t Hinv Hn) as (m2 & Hf2 & Hca & Htm).
  rewrite Hf in Hf2. injection Hf2 as <-.
  destruct (fired_id m n t Hinv Hn) as (Hin & Hnd & Hiff).
  unfold one_chain_each, pending_ids. rewrite Hca, Htm.
  destruct (iteration_stops (timer_item_id t) m).
  - split; [done|]. intros x. rewrite Hiff. set_solver.
  - rewrite fmap_app. simpl. split.
    + apply NoDup_app. repeat split; [done| |apply NoDup_singleton].
      intros x Hx ->%list_elem_of_singleton. apply Hiff in Hx. by destruct Hx.
    + intros x. rewrite elem_of_app, Hiff, list_elem_of_singleton.
      destruct (decide (x = timer_item_id t)) as [->|]; naive_solver.
Qed.

Lemma one_chain_step m m' :
  one_chain_each m -> step m m' -> one_chain_each m'.
Proof.
  intros Hinv Hstep. destruct Hstep as [info m|n m m' Hf|il m].
  - by apply one_chain_start.
  - by apply one_chain_fire with m n.
  - done.
Qed.

(** Every state a manager reaches has one chain per animating id. *)
Lemma reachable_one_chain m : reachable m -> one_chain_each m.
Proof.
  induction 1 as [il views|m m' _ IH Hstep].
  - apply one_chain_new.
  - by apply one_chain_step with m.
Qed.

(** [start] only adds to the animating set. *)
Lemma start_keeps item_info m x :
  x ∈ currently_animating m -> x ∈ currently_animating (start item_info m).
Proof.
  unfold start. case_decide; simpl; [|done]. set_solver.
Qed.

(** C10.  Each item id has at most one live animation.  In every state a
    manager reaches, the ids with a pending timer call are exactly the
    animating ids, each with one call.  [start] for an id that is already
    animating changes nothing, so it schedules no timer; [start] for a new
    id adds it and appends exactly one timer call.  A firing timer returns;
    its id leaves the set if and only if the item has left the list or
    [continue_animation] returns a value equal to [False], otherwise one
    new call is scheduled.  No other step removes an id. *)
Theorem one_animation_per_item :
  (forall m, reachable m -> one_chain_each m) /\
  (forall item_info m,
     id item_info ∈ currently_animating m -> start item_info m = m) /\
  (forall item_info m,
     id item_info ∉ currently_animating m ->
     currently_animating (start item_info m)
       = currently_animating m ∪ {[id item_info]} /\
     timers (start item_info m)
       = timers m ++ [TimerCall (initial_delay item_info) (id item_info)
                                (repeat_delay item_info)]) /\
  (forall m n t,
     reachable m -> timers m !! n = Some t ->
     exists m',
       fire n m = Some (Ok m') /\
       (timer_item_id t ∉ currently_animating m'
        <-> iteration_stops (timer_item_id t) m = true) /\
       (timer_item_id t ∈ pending_ids m'
        <-> iteration_stops (timer_item_id t) m = false) /\
       (forall x, x <> timer_item_id t ->
          (x ∈ currently_animating m' <-> x ∈ currently_animating m))) /\
  (forall m m' x,
     reachable m -> step m m' ->
     x ∈ currently_animating m -> x ∉ currently_animating m' ->
     exists n t,
       timers m !! n = Some t /\ timer_item_id t = x /\
       fire n m = Some (Ok m') /\ iteration_stops x m = true).
Proof.
  split; [exact reachable_one_chain|].
  split.
  { intros info m Hin. unfold start. by rewrite decide_False by auto. }
  split.
  { intros info m Hnew. unfold start. by rewrite decide_True by done. }
  split.
  - intros m n t Hr Hn. apply reachable_one_chain in Hr as Hinv.
    destruct (fire_one_chain m n t Hinv Hn) as (m' & Hf & Hca & Htm).
    destruct (fired_id m n t Hinv Hn) as (Hin & Hnd & Hiff).
    exists m'. split; [done|].
    unfold pending_ids. rewrite Hca, Htm.
    destruct (iteration_stops (timer_item_id t) m).
    + repeat split; try done; set_solver.
    + rewrite fmap_app. simpl. repeat split; try done; set_solver.
  - intros m m' x Hr Hstep Hin Hout.
    apply reachable_one_chain in Hr as Hinv.
    destruct Hstep as [info m|n m m' Hf|il m].
    + by apply (start_keeps info) in Hin.
    + destruct (timers m !! n) as [t|] eqn:Hn;
        [|unfold fire in Hf; by rewrite Hn in Hf].
      destruct (fire_one_chain m n t Hinv Hn) as (m2 & Hf2 & Hca & _).
      rewrite Hf in Hf2. injection Hf2 as <-.
      destruct (iteration_stops (timer_item_id t) m) eqn:Hstop;
        rewrite Hca in Hout; [|done].
      assert (x = timer_item_id t) as ->.
      { destruct (decide (x = timer_item_id t)); [done|set_solver]. }
      by exists n, t.
    + done.
Qed.

End WithHooks.

(** *** Restoring a selection *)

(** The loop appends, in order, the iter of each id the list still has. *)
Lemma restore_loop_spec il ids acc :
  exists iters,
    restore_loop il ids acc = Ok (acc ++ iters) /\
    Forall2 (fun id_ it => get_iter il id_ = Ok it)
            (filter (fun id_ => id_ ∈ item_ids il) ids) iters.
Proof.
  revert acc. induction ids as [|id_ ids IH]; intros acc; simpl.
  - exists []. by rewrite app_nil_r.
  - destruct (decide (id_ ∈ item_ids il)) as [Hin|Hout].
    + destruct (get_iter_present il id_ Hin) as [it Hit].
      destruct (IH (acc ++ [it])) as (iters & Hloop & Hall).
      exists (it :: iters). rewrite Hit. simpl. rewrite Hloop.
      split; [by rewrite <- app_assoc|].
      rewrite filter_cons_True by done. by constructor.
    + destruct (IH acc) as (iters & Hloop & Hall).
      exists iters. rewrite (get_iter_absent il id_ Hout). simpl.
      split; [done|]. by rewrite filter_cons_False.
Qed.

(** C7.  Restoring a saved selection selects exactly the ids the item list
    still has: looking up an id that was removed raises [KeyError], the
    loop skips it, and the view's selection becomes the iters of the
    remaining ids, in order.  Likewise, when the timer of an item that has
    left the list fires, the iteration takes the id out of the animating
    set, schedules nothing and returns. *)
Theorem removed_items_skipped :
  (forall x il,
     get_iter (remove_item x il) x = Raise KeyError /\
     get_item (remove_item x il) x = Raise KeyError) /\
  (forall selected_ids c v,
     views c !! selected_view c = Some v ->
     exists iters,
       restore_selected_ids selected_ids c
         = Ok (with_views
                 (<[selected_view c := view_set_selection iters v]> (views c)) c) /\
       Forall2 (fun id_ it => get_iter (ctl_item_list c) id_ = Ok it)
               (filter (fun id_ => id_ ∈ item_ids (ctl_item_list c)) selected_ids)
               iters) /\
  (forall (hooks : AnimationHooks) m n t,
     reachable m -> timers m !! n = Some t ->
     get_item (item_list m) (timer_item_id t) = Raise KeyError ->
     fire n m
       = Some (Ok (Manager (currently_animating m ∖ {[timer_item_id t]})
                           (item_list m) (item_views m)
                           (delete n (timers m))))).
Proof.
  repeat split.
  - apply get_iter_absent, remove_item_absent.
  - apply get_item_absent, remove_item_absent.
  - intros ids c v Hv.
    destruct (restore_loop_spec (ctl_item_list c) ids []) as (iters & Hl & Hall).
    exists iters. split; [|done].
    unfold restore_selected_ids. rewrite Hl. simpl.
    unfold on_current_item_view, get_current_item_view. by rewrite Hv.
  - intros hooks m n t Hr Hn Hgone.
    destruct (fired_id m n t (reachable_one_chain m Hr) Hn) as (Hin & _).
    unfold fire. rewrite Hn. simpl. unfold _do_iteration. simpl.
    rewrite Hgone. unfold set_remove. by rewrite decide_True by done.
Qed.

(** *** Sort keys *)

(** C8.  For a sorter whose key does not start with '-',
    [parse_sort_key (make_sort_key sorter)] is the sorter's key and its
    ascending flag; [parse_sort_key] maps a string that starts with '-' to
    the rest of the string and descending, and any other string to itself
    and ascending. *)
Theorem sort_key_roundtrip :
  (forall sorter,
     startswith_dash (KEY sorter) = false ->
     parse_sort_key (make_sort_key sorter) = (KEY sorter, is_ascending sorter)) /\
  (forall column, parse_sort_key (String "-" column) = (column, false)) /\
  (forall key, startswith_dash key = false -> parse_sort_key key = (key, true)).
Proof.
  assert (Hplain : forall key,
            startswith_dash key = false -> parse_sort_key key = (key, true)).
  { intros [|a key]; [done|]. simpl.
    destruct a as [[] [] [] [] [] [] [] []]; try done. }
  repeat split; [|done].
  intros [key asc] Hkey. unfold make_sort_key. simpl in *.
  destruct asc; [by apply Hplain|done].
Qed.

(** *** Bulk changes *)

Lemma for_each_ok {A B} (f : A -> result B) (l : list A) :
  Forall (fun x => exists y, f x = Ok y) l -> exists ys, for_each f l = Ok ys.
Proof.
  induction 1 as [|x l [y Hy] _ [ys Hys]]; simpl; [by eexists|].
  rewrite Hy. simpl. rewrite Hys. simpl. by eexists.
Qed.

(** C9.  When a pending change is announced, every item view receives
    [start_bulk_change] (once) if the added and the removed items together
    number more than 100, and no view receives it otherwise; the changed
    items play no part.  The handler returns whenever the controller has a
    current view whose selected rows are in the model. *)
Theorem bulk_change_threshold (added changed : list ItemInfo)
    (removed : list nat) (c : controller) (v : view) :
  views c !! selected_view c = Some v ->
  Forall (fun i => exists info, model_info (ctl_item_list c) i = Ok info)
         (selection v) ->
  exists c',
    handle_items_will_change added changed removed c = Ok c' /\
    handle_items_will_change added [] removed c = Ok c' /\
    forall name,
      bulk_changes <$> views c' !! name
      = (fun w => if (100 <? length added + length removed)%nat
                  then S (bulk_changes w)
                  else bulk_changes w) <$> views c !! name.
Proof.
  intros Hv Hsel.
  destruct (for_each_ok _ _ Hsel) as [infos Hinfos].
  unfold handle_items_will_change, item_list_will_change, get_selected_ids,
    get_selection, on_current_item_view, get_current_item_view,
    on_items_will_change.
  simpl. rewrite Hv. simpl. rewrite Hinfos. simpl.
  eexists. split; [done|]. split; [done|].
  intros name.
  destruct (100 <? length added + length removed)%nat; simpl.
  - rewrite lookup_fmap.
    destruct (decide (selected_view c = name)) as [<-|Hne].
    + by rewrite lookup_insert_eq, Hv.
    + rewrite lookup_insert_ne by done. by destruct (views c !! name).
  - destruct (decide (selected_view c = name)) as [<-|Hne].
    + by rewrite lookup_insert_eq, Hv.
    + by rewrite lookup_insert_ne.
Qed.

(** *** The theorems at work on two items in two views *)

Import Examples.

Local Open Scope nat_scope.

Lemma one_animation_per_item_witness :
  one_chain_each
    (@start throbber_hooks (mkItemInfo 1 "downloading")
            (new_AnimationManager two_items [])).
Proof.
  apply (proj1 (@one_animation_per_item throbber_hooks)).
  apply reachable_step with (new_AnimationManager two_items []).
  - apply reachable_new.
  - apply step_start.
Defined.

Lemma removed_items_skipped_witness :
  exists iters,
    restore_selected_ids [1; 5; 2]%nat two_views
      = Ok (with_views (<["list" := View iters 0 0]> (views two_views)) two_views) /\
    Forall2 (fun id_ it => get_iter two_items id_ = Ok it) [1; 2]%nat iters.
Proof.
  destruct removed_items_skipped as (_ & Hrestore & _).
  apply (Hrestore [1; 5; 2]%nat two_views (View [10%nat] 0 0)).
  vm_compute. reflexivity.
Defined.

Lemma sort_key_roundtrip_witness :
  parse_sort_key (make_sort_key (Sorter "name" false)) = ("name", false).
Proof.
  apply (proj1 sort_key_roundtrip (Sorter "name" false)).
  reflexivity.
Defined.

Lemma bulk_change_threshold_witness :
  exists c',
    handle_items_will_change (replicate 101 (mkItemInfo 3 "new"))
                             [mkItemInfo 1 "downloading"] [] two_views = Ok c' /\
    bulk_changes <$> views c' !! "standard" = Some 1%nat.
Proof.
  destruct (bulk_change_threshold (replicate 101 (mkItemInfo 3 "new"))
              [mkItemInfo 1 "downloading"] [] two_views (View [10%nat] 0 0))
    as (c' & Hc & _ & Hbulk).
  - vm_compute. reflexivity.
  - repeat constructor. by exists (mkItemInfo 1 "downloading").
  - exists c'. split; [exact Hc|]. rewrite Hbulk. vm_compute. reflexivity.
Defined.

End ItemListControllerFacts.

(** ** More on the configuration store *)

Module ConfigMore.

Import Config PyFacts ConfigFacts Examples.

Section WithCollaborators.

Variable APP_PLATFORM : descriptor.
Variable platformcfg_get : descriptor -> value.
Variable new_AppConfig : option string -> AppConfig.

#[local] Abbreviation get_body := (get_body platformcfg_get).
#[local] Abbreviation load := (load APP_PLATFORM platformcfg_get new_AppConfig).
#[local] Abbreviation _check_validity :=
  (_check_validity APP_PLATFORM platformcfg_get new_AppConfig).
#[local] Abbreviation get := (get APP_PLATFORM platformcfg_get new_AppConfig).
#[local] Abbreviation set := (set APP_PLATFORM platformcfg_get new_AppConfig).
#[local] Abbreviation save := (save APP_PLATFORM platformcfg_get new_AppConfig).

(** *** Reading does not depend on the log *)

Lemma with_log_with_log l l' s : with_log l (with_log l' s) = with_log l s.
Proof. done. Qed.

Lemma get_body_with_log r u l s :
  exists l', get_body r u (with_log l s) = ((get_body r u s).1, with_log l' s).
Proof.
  unfold Config.get_body.
  replace (deref (with_log l s) r) with (deref s r) by (by destruct r).
  simpl. repeat case_match; simpl; eauto.
Qed.

Lemma load_with_log theme l s :
  exists l', load theme (with_log l s) = with_log l' (load theme s).
Proof.
  unfold Config.load.
  set (mk := fun s : state =>
    let s := with_configfile (new_AppConfig theme) s in
    let s := with_data (if negb (app_in_unit_tests s)
                        then platformcfg_load s else Some ∅) s in
    match _data s with
    | None => with_data (Some ∅) s
    | Some _ => s
    end).
  assert (Hmk : mk (with_log l s) = with_log l (mk s)).
  { unfold mk. simpl. unfold platformcfg_load. simpl.
    by repeat case_match. }
  change (exists l', (let '(platform, s0) := get_body (PrefObj APP_PLATFORM) true
                                                 (mk (with_log l s)) in
                      with_APP_SERIAL (set_key ("appSerial-" +:+ py_str platform)
                                               (prefs_APP_SERIAL s0)) s0)
                     = with_log l'
                         (let '(platform, s0) := get_body (PrefObj APP_PLATFORM) true
                                                   (mk s) in
                          with_APP_SERIAL (set_key ("appSerial-" +:+ py_str platform)
                                                   (prefs_APP_SERIAL s0)) s0)).
  rewrite Hmk.
  destruct (get_body_with_log (PrefObj APP_PLATFORM) true l (mk s)) as [l1 ->].
  destruct (get_body_frame platformcfg_get (PrefObj APP_PLATFORM) true (mk s))
    as [l2 Hl2].
  destruct (Config.get_body platformcfg_get (PrefObj APP_PLATFORM) true (mk s))
    as [v x]. simpl in *. subst x. by exists l1.
Qed.

Lemma check_validity_with_log l s :
  exists l', _check_validity (with_log l s) = with_log l' (_check_validity s).
Proof.
  unfold Config._check_validity. simpl.
  destruct (_data s); [by exists l|]. apply load_with_log.
Qed.

(** The value [get] returns is the same in two states that differ in the
    log only. *)
Lemma get_with_log r u l s : (get r u (with_log l s)).1 = (get r u s).1.
Proof.
  unfold Config.get.
  destruct (check_validity_with_log l s) as [l' ->].
  by destruct (get_body_with_log r u l' (_check_validity s)) as [l2 ->].
Qed.

(** X1.  Reading is repeatable and writes nothing: [get] leaves the
    override layer, the callbacks, the platform store and the idle queue as
    they are, leaves [_data] loaded, and a second [get] of the same
    descriptor returns the same value. *)
Theorem get_read_only (r : pref_ref) (use_theme_data : bool) (s : state) :
  let s1 := (get r use_theme_data s).2 in
  _data s1 = Some (loaded_data s) /\
  TEMPORARY_SETTINGS s1 = TEMPORARY_SETTINGS s /\
  _callbacks s1 = _callbacks s /\
  platform_store s1 = platform_store s /\
  idle_queue s1 = idle_queue s /\
  (get r use_theme_data s1).1 = (get r use_theme_data s).1.
Proof.
  intros s1.
  destruct (check_validity_fields APP_PLATFORM platformcfg_get new_AppConfig s)
    as (Hd & Ht & Hc & _ & Hp & Hq).
  destruct (get_body_frame platformcfg_get r use_theme_data (_check_validity s))
    as [l Hl].
  assert (Hs1 : s1 = with_log l (_check_validity s)) by done.
  rewrite Hs1. simpl. repeat split; try done.
  rewrite get_with_log. unfold Config.get.
  by rewrite check_validity_idem.
Qed.

(** *** What the value of [get] depends on *)

Lemma load_configfile theme s :
  app_configfile (load theme s) = new_AppConfig theme.
Proof.
  unfold Config.load.
  match goal with |- context [Config.get_body ?g ?r ?u ?x] =>
    destruct (get_body_frame g r u x) as [l Hl];
    destruct (Config.get_body g r u x) as [v x'] eqn:Hg end.
  simpl in Hl. subst x'. clear Hg. simpl. by repeat case_match.
Qed.

Lemma check_validity_configfile s :
  app_configfile (_check_validity s)
  = match _data s with
    | None => new_AppConfig None
    | Some _ => app_configfile s
    end.
Proof.
  unfold Config._check_validity. destruct (_data s); [done|].
  apply load_configfile.
Qed.

(** For a descriptor passed by value, [get] returns the same in two states
    with the same override layer, the same mapping once loaded and the
    same config file once loaded. *)
Lemma get_ext d u s s' :
  TEMPORARY_SETTINGS s = TEMPORARY_SETTINGS s' ->
  loaded_data s = loaded_data s' ->
  app_configfile (_check_validity s) = app_configfile (_check_validity s') ->
  (get (PrefObj d) u s).1 = (get (PrefObj d) u s').1.
Proof.
  intros Ht Hd Hc. unfold Config.get. rewrite !get_body_first_hit. simpl.
  destruct (check_validity_fields APP_PLATFORM platformcfg_get new_AppConfig s)
    as (Hd1 & Ht1 & _).
  destruct (check_validity_fields APP_PLATFORM platformcfg_get new_AppConfig s')
    as (Hd2 & Ht2 & _).
  unfold source_temporary, source_data, source_configfile.
  by rewrite Hd1, Hd2, Ht1, Ht2, Ht, Hd, Hc.
Qed.

Lemma ready_configfile r v s :
  app_configfile
    (_check_validity (with_log (log s ++ [LogDebug (key (deref s r)) v]) s))
  = app_configfile (_check_validity s).
Proof. by rewrite !check_validity_configfile. Qed.

(** What [set] leaves in the two dictionaries and in the config file. *)
Lemma set_stores r v s :
  let s1 := set r v s in
  let k := key (deref s1 r) in
  app_configfile s1 = app_configfile (_check_validity s) /\
  ((TEMPORARY_SETTINGS s1 = TEMPORARY_SETTINGS s /\
    _data s1 = Some (loaded_data s)) \/
   (exists t, TEMPORARY_SETTINGS s = Some t /\
              TEMPORARY_SETTINGS s1 = Some (<[k := v]> t) /\
              _data s1 = Some (loaded_data s)) \/
   (TEMPORARY_SETTINGS s = None /\ TEMPORARY_SETTINGS s1 = None /\
    _data s1 = Some (<[k := v]> (loaded_data s)))).
Proof.
  intros s1 k. subst s1 k.
  destruct (set_fields APP_PLATFORM platformcfg_get new_AppConfig r v s)
    as (Hr & Hcf & _).
  destruct (ready_fields APP_PLATFORM platformcfg_get new_AppConfig r v s)
    as (Hd0 & Ht0 & _).
  rewrite Hr, Hcf, ready_configfile. split; [done|].
  destruct (TEMPORARY_SETTINGS s) as [t|] eqn:Ht.
  - rewrite (set_temporary_branch _ _ _ r v s t Ht). cbv zeta.
    case_match; simpl.
    + right. left. exists t. by rewrite Hd0.
    + left. by rewrite Ht0, ?Ht, Hd0.
  - rewrite (set_data_branch _ _ _ r v s Ht). cbv zeta.
    case_match; simpl.
    + right. right. by rewrite Ht0, ?Ht.
    + left. by rewrite Ht0, ?Ht, Hd0.
Qed.

(** X2.  Writing one key does not change what [get] returns for a
    descriptor with another key. *)
Theorem set_other_key (d d' : descriptor) (v : value) (use_theme_data : bool)
    (s : state) :
  key d <> key d' ->
  (get (PrefObj d') use_theme_data (set (PrefObj d) v s)).1
  = (get (PrefObj d') use_theme_data s).1.
Proof.
  intros Hne.
  rewrite (get_body_after_set APP_PLATFORM platformcfg_get new_AppConfig).
  unfold Config.get. rewrite !get_body_first_hit. simpl.
  destruct (set_stores (PrefObj d) v s) as (Hcf & Hst). simpl in Hcf, Hst.
  destruct (check_validity_fields APP_PLATFORM platformcfg_get new_AppConfig s)
    as (Hd1 & Ht1 & _).
  unfold source_temporary, source_data, source_configfile.
  rewrite Hcf, Hd1, Ht1.
  destruct Hst as [(-> & ->)|[(t & Ht & -> & ->)|(Ht & -> & ->)]].
  - done.
  - rewrite Ht. by rewrite lookup_insert_ne.
  - rewrite Ht. by rewrite lookup_insert_ne.
Qed.



(** *** Callbacks and later writes *)


(** *** Leaving earlier overrides behind *)

(** X5.  [init_temporary] starts from an empty layer: whatever was written
    in temporary mode before is dropped, and [get] returns what it returns
    with no override layer at all. *)
Theorem init_temporary_drops_overrides (d d' : descriptor) (v : value)
    (use_theme_data : bool) (s : state) :
  TEMPORARY_SETTINGS s <> None ->
  (get (PrefObj d') use_theme_data (init_temporary (set (PrefObj d) v s))).1
  = (get (PrefObj d') use_theme_data (with_temporary None s)).1.
Proof.
  intros Hon.
  destruct (set_temporary_frame APP_PLATFORM platformcfg_get new_AppConfig
              (PrefObj d) v s Hon) as (_ & Hd & Hu & Hp).
  destruct (set_stores (PrefObj d) v s) as (Hcf & _).
  set (s1 := Config.set APP_PLATFORM platformcfg_get new_AppConfig
               (PrefObj d) v s) in *.
  unfold Config.get. rewrite !get_body_first_hit. simpl.
  destruct (check_validity_fields APP_PLATFORM platformcfg_get new_AppConfig
              (init_temporary s1)) as (Hd1 & Ht1 & _).
  destruct (check_validity_fields APP_PLATFORM platformcfg_get new_AppConfig
              (with_temporary None s)) as (Hd2 & Ht2 & _).
  unfold source_temporary, source_data, source_configfile.
  rewrite Hd1, Ht1, Hd2, Ht2, !check_validity_configfile. simpl.
  rewrite lookup_empty, Hd, Hcf, check_validity_configfile.
  assert (H1 : loaded_data (init_temporary s1) = loaded_data s).
  { apply loaded_data_eq. simpl. exact Hd. }
  assert (H2 : loaded_data (with_temporary None s) = loaded_data s) by done.
  by rewrite H1, H2.
Qed.

(** *** Saving and loading again *)


(** X7.  In unit tests nothing is persisted and nothing is read back:
    [save] leaves the platform store alone and [load] always starts from
    the empty mapping, so after set, save and load the mapping is empty. *)
Theorem unit_tests_do_not_persist (theme : option string) (r : pref_ref)
    (v : value) (s : state) :
  app_in_unit_tests s = true ->
  platform_store (save (set r v s)) = platform_store s /\
  _data (load theme (save (set r v s))) = Some ∅.
Proof.
  intros Hu.
  destruct (ready_fields APP_PLATFORM platformcfg_get new_AppConfig r v s)
    as (_ & _ & _ & Hu0 & Hp0 & _).
  assert (Hfr : app_in_unit_tests (set r v s) = true /\
                platform_store (set r v s) = platform_store s).
  { destruct (TEMPORARY_SETTINGS s) as [t|] eqn:Ht.
    - rewrite (set_temporary_branch _ _ _ r v s t Ht). cbv zeta.
      case_match; simpl; by rewrite Hu0, Hp0.
    - rewrite (set_data_branch _ _ _ r v s Ht). cbv zeta.
      case_match; simpl; by rewrite Hu0, Hp0. }
  destruct Hfr as [Hu1 Hp1].
  destruct (check_validity_fields APP_PLATFORM platformcfg_get new_AppConfig
              (set r v s)) as (_ & _ & _ & Hu2 & Hp2 & _).
  assert (Hsv : save (set r v s) = _check_validity (set r v s)).
  { unfold Config.save. by rewrite Hu2, Hu1. }
  rewrite Hsv, Hp2, Hp1. split; [done|].
  destruct (load_fields APP_PLATFORM platformcfg_get new_AppConfig theme
              (_check_validity (set r v s))) as (-> & _).
  by rewrite Hu2, Hu1.
Qed.

(** *** The serial-number descriptor *)

(** X20.  Loading renames [prefs.APP_SERIAL]: after [_check_validity] has
    loaded, its key is 'appSerial-' followed by the platform name, which is
    what [get(prefs.APP_PLATFORM)] returns from then on; its other
    attributes are untouched. *)
Theorem serial_key_follows_platform (s : state) :
  _data s = None ->
  let s1 := _check_validity s in
  key (prefs_APP_SERIAL s1)
    = "appSerial-" +:+ py_str (get (PrefObj APP_PLATFORM) true s1).1 /\
  default (prefs_APP_SERIAL s1) = default (prefs_APP_SERIAL s) /\
  platformSpecific (prefs_APP_SERIAL s1) = platformSpecific (prefs_APP_SERIAL s) /\
  possible_values (prefs_APP_SERIAL s1) = possible_values (prefs_APP_SERIAL s) /\
  failsafe_value (prefs_APP_SERIAL s1) = failsafe_value (prefs_APP_SERIAL s).
Proof.
  intros Hd s1.
  assert (Hget : (get (PrefObj APP_PLATFORM) true s1).1
                 = (get_body (PrefObj APP_PLATFORM) true s1).1).
  { unfold Config.get. unfold s1. by rewrite check_validity_idem. }
  rewrite Hget. clear Hget. subst s1.
  unfold Config._check_validity. rewrite Hd. unfold Config.load.
  match goal with |- context [Config.get_body ?g ?r ?u ?x] =>
    set (x0 := x);
    destruct (get_body_frame g r u x0) as [l Hl];
    pose proof (get_body_first_hit g r u x0) as Hv;
    destruct (Config.get_body g r u x0) as [v x'] eqn:Hg end.
  simpl in Hl, Hv. subst x'. simpl.
  split; [|unfold x0; simpl; by repeat case_match].
  f_equal. f_equal. rewrite Hv, get_body_first_hit. simpl.
  unfold source_temporary, source_data, source_configfile. by simpl.
Qed.

End WithCollaborators.

(** *** The theorems at work on the small installation *)

#[local] Abbreviation ex_get :=
  (Config.get pref_platform platform_default build_configfile).
#[local] Abbreviation ex_set :=
  (Config.set pref_platform platform_default build_configfile).
#[local] Abbreviation ex_save :=
  (Config.save pref_platform platform_default build_configfile).
#[local] Abbreviation ex_load :=
  (Config.load pref_platform platform_default build_configfile).

Lemma set_other_key_witness :
  (ex_get (PrefObj pref_name) true
     (ex_set (PrefObj pref_mode) (VStr "manual") loaded_state)).1
  = (ex_get (PrefObj pref_name) true loaded_state).1.
Proof.
  apply (set_other_key pref_platform platform_default build_configfile
           pref_mode pref_name (VStr "manual") true loaded_state).
  vm_compute. congruence.
Defined.

Lemma init_temporary_drops_overrides_witness :
  (ex_get (PrefObj pref_name) true
     (init_temporary
        (ex_set (PrefObj pref_name) (VStr "Miro")
           (init_temporary loaded_state)))).1
  = (ex_get (PrefObj pref_name) true
       (with_temporary None (init_temporary loaded_state))).1.
Proof.
  apply (init_temporary_drops_overrides pref_platform platform_default
           build_configfile pref_name pref_name (VStr "Miro") true
           (init_temporary loaded_state)).
  vm_compute. congruence.
Defined.


Lemma unit_tests_do_not_persist_witness :
  let s := State None None ∅ empty_configfile true pref_serial
                 (Some {["resumeMode" := VStr "manual"]}) [] [] in
  platform_store (ex_save (ex_set (PrefObj pref_name) (VStr "Miro") s))
    = Some {["resumeMode" := VStr "manual"]} /\
  _data (ex_load None (ex_save (ex_set (PrefObj pref_name) (VStr "Miro") s)))
    = Some ∅.
Proof.
  intros s.
  destruct (unit_tests_do_not_persist pref_platform platform_default
              build_configfile None (PrefObj pref_name) (VStr "Miro") s)
    as [H1 H2].
  - vm_compute. reflexivity.
  - split; [rewrite H1; vm_compute; reflexivity|exact H2].
Defined.

Lemma serial_key_follows_platform_witness :
  key (prefs_APP_SERIAL
         (Config._check_validity pref_platform platform_default build_configfile
            unloaded_state))
  = "appSerial-linux".
Proof.
  destruct (serial_key_follows_platform pref_platform platform_default
              build_configfile unloaded_state) as [H _].
  - reflexivity.
  - rewrite H. vm_compute. reflexivity.
Defined.

End ConfigMore.

(** ** More on item-list controllers *)

Module ItemListControllerMoreFacts.

Import ItemListController ItemListControllerMore PyFacts ItemListControllerFacts.

(** *** Sorters *)

Section WithSortTables.

Variable SORT_KEY_MAP : gmap string string.
Variable DEFAULT_SORT_COLUMN : gmap string string.

#[local] Abbreviation make_sorter := (make_sorter SORT_KEY_MAP DEFAULT_SORT_COLUMN).
#[local] Abbreviation get_sorter := (get_sorter SORT_KEY_MAP DEFAULT_SORT_COLUMN).

(** X8.  [make_sorter] for a known column gives that column's sorter with
    the direction asked for.  For an unknown column it falls back to the
    default sort key of the controller's type, takes the direction from
    that key and ignores the direction asked for; it raises [KeyError]
    exactly when the column is unknown and the type has no default or the
    default's column is unknown too. *)
Theorem make_sorter_fallback (typ column : string) (ascending : bool) :
  (forall cls, SORT_KEY_MAP !! column = Some cls ->
     make_sorter typ column ascending = Ok (Sorter cls ascending)) /\
  (SORT_KEY_MAP !! column = None ->
     make_sorter typ column ascending = make_sorter typ column (negb ascending) /\
     forall default_key cls,
       DEFAULT_SORT_COLUMN !! typ = Some default_key ->
       SORT_KEY_MAP !! (parse_sort_key default_key).1 = Some cls ->
       make_sorter typ column ascending
         = Ok (Sorter cls (negb (startswith_dash default_key)))) /\
  (make_sorter typ column ascending = Raise KeyError <->
     SORT_KEY_MAP !! column = None /\
     (DEFAULT_SORT_COLUMN !! typ = None \/
      exists default_key,
        DEFAULT_SORT_COLUMN !! typ = Some default_key /\
        SORT_KEY_MAP !! (parse_sort_key default_key).1 = None)).
Proof.
  assert (Hdir : forall k, (parse_sort_key k).2 = negb (startswith_dash k)).
  { intros [|a k]; [done|]. simpl.
    destruct a as [[] [] [] [] [] [] [] []]; done. }
  unfold ItemListControllerMore.make_sorter, dict_item.
  split; [|split].
  - by intros cls ->.
  - intros ->. simpl. split.
    + by destruct (DEFAULT_SORT_COLUMN !! typ).
    + intros default_key cls Hdef Hcls. rewrite Hdef. simpl.
      specialize (Hdir default_key).
      destruct (parse_sort_key default_key) as [c a]. simpl in *.
      rewrite Hcls. simpl. by rewrite Hdir.
  - destruct (SORT_KEY_MAP !! column) eqn:Hc; simpl.
    { split; [done|]. by intros [? _]. }
    destruct (DEFAULT_SORT_COLUMN !! typ) as [dk|]; simpl.
    + destruct (parse_sort_key dk) as [c a] eqn:Hp. simpl.
      destruct (SORT_KEY_MAP !! c) eqn:Hcc; simpl.
      * split; [done|]. intros (_ & [?|(dk' & [= <-] & Hn)]); [done|].
        rewrite Hp in Hn. simpl in Hn. congruence.
      * split; [|done]. intros _. split; [done|]. right. exists dk.
        by rewrite Hp.
    + split; [|done]. intros _. split; [done|]. by left.
Qed.

Lemma parse_make_sort_key (s : sorter) :
  startswith_dash (KEY s) = false ->
  parse_sort_key (make_sort_key s) = (KEY s, is_ascending s).
Proof.
  destruct s as [k asc]. unfold make_sort_key. simpl. intros Hk.
  destruct asc; [|done].
  destruct k as [|a k]; [done|]. simpl in *.
  destruct a as [[] [] [] [] [] [] [] []]; done.
Qed.

(** X9.  The sort key saved for a sorter gives the same sorter back:
    [get_sorter] on [make_sort_key sorter] is [sorter], when the sorter's
    class is in [SORT_KEY_MAP] under its own [KEY] and the [KEY] does not
    start with '-'. *)
Theorem saved_sort_key_round_trip (typ : string) (sorter : sorter) :
  SORT_KEY_MAP !! KEY sorter = Some (KEY sorter) ->
  startswith_dash (KEY sorter) = false ->
  get_sorter typ (make_sort_key sorter) = Ok sorter.
Proof.
  intros Hmap Hdash. unfold ItemListControllerMore.get_sorter.
  rewrite parse_make_sort_key by done.
  unfold ItemListControllerMore.make_sorter, dict_item. rewrite Hmap.
  by destruct sorter.
Qed.

End WithSortTables.

(** *** The selection across a change of the item list *)

Lemma item_list_will_change_ok c v infos :
  views c !! selected_view c = Some v ->
  for_each (model_info (ctl_item_list c)) (selection v) = Ok infos ->
  get_selected_ids c = Ok (map id infos) /\
  item_list_will_change c
  = Ok (with_views (<[selected_view c := view_unselect_all v]> (views c))
          (with_selection_to_restore (Some (map id infos)) c)).
Proof.
  intros Hv Hinfos.
  unfold item_list_will_change, get_selected_ids, get_selection,
    on_current_item_view, get_current_item_view.
  simpl. rewrite Hv. simpl. by rewrite Hinfos.
Qed.

(** X10.  The selection survives a change of the item list.  Between
    [item_list_will_change] and [send_model_changed] nothing is selected;
    afterwards the current view has selected the rows, in the new list, of
    exactly those previously selected ids that the new list still has, and
    the saved selection is used up: a further [send_model_changed] reports
    a soft failure and keeps the selection. *)
Theorem selection_survives_change (c : controller) (v : view) (il' : ItemList) :
  views c !! selected_view c = Some v ->
  Forall (fun i => exists info, model_info (ctl_item_list c) i = Ok info)
         (selection v) ->
  exists ids c1 v1 c2 v2 c3,
    get_selected_ids c = Ok ids /\
    item_list_will_change c = Ok c1 /\
    views c1 !! selected_view c1 = Some v1 /\ selection v1 = [] /\
    send_model_changed (with_item_list il' c1) = Ok c2 /\
    views c2 !! selected_view c2 = Some v2 /\
    Forall2 (fun id_ it => get_iter il' id_ = Ok it)
            (filter (fun id_ => id_ ∈ item_ids il') ids) (selection v2) /\
    soft_failures c2 = soft_failures c /\
    send_model_changed c2 = Ok c3 /\
    selection <$> views c3 = selection <$> views c2 /\
    soft_failures c3 = soft_failures c ++ ["send_model_changed()"].
Proof.
  intros Hv Hsel.
  destruct (for_each_ok _ _ Hsel) as [infos Hinfos].
  destruct (item_list_will_change_ok c v infos Hv Hinfos) as [Hids Hc1].
  destruct (restore_loop_spec il' (map id infos) []) as (iters & Hloop & Hall).
  set (vs1 := <[selected_view c := view_unselect_all v]> (views c)).
  set (v2 := view_set_selection iters
               (view_model_changed (view_unselect_all v))).
  exists (map id infos). eexists. exists (view_unselect_all v).
  exists (Controller (<[selected_view c := v2]> (view_model_changed <$> vs1))
                     (selected_view c) il' None (soft_failures c)).
  exists v2. eexists.
  split; [done|]. split; [exact Hc1|].
  split; [apply lookup_insert_eq|]. split; [done|].
  split.
  { unfold send_model_changed, restore_selected_ids, on_current_item_view,
      get_current_item_view. simpl. rewrite Hloop. simpl.
    by rewrite lookup_fmap, lookup_insert_eq. }
  split; [apply lookup_insert_eq|]. split; [exact Hall|]. split; [done|].
  split; [reflexivity|]. simpl. split; [|done].
  rewrite <- map_fmap_compose. apply map_fmap_ext. by intros k [] _.
Qed.

(** Looking a row up by its handle and then by its item id comes back to
    the handle, when no two rows share an item id. *)
Lemma model_info_get_iter il i info :
  NoDup (item_ids il) ->
  model_info il i = Ok info ->
  get_iter il (id info) = Ok i /\ id info ∈ item_ids il.
Proof.
  unfold model_info, get_iter, find_row, item_ids.
  induction il as [|r il IH]; simpl; [done|].
  intros [Hr Hnd]%NoDup_cons.
  destruct (Nat.eqb_spec (row_iter r) i) as [Hri|Hri].
  - intros [= <-]. rewrite Nat.eqb_refl. simpl. split; [by f_equal|].
    apply elem_of_cons. by left.
  - intros Hfind. destruct (IH Hnd Hfind) as [Hit Hin].
    destruct (Nat.eqb_spec (id (row_info r)) (id info)) as [Heq|Hne].
    + rewrite Heq in Hr. done.
    + split; [done|]. apply elem_of_cons. by right.
Qed.

(** X11.  When the item list has not changed and no two rows share an item
    id, [send_model_changed] after [item_list_will_change] restores the
    selection exactly. *)
Theorem selection_restored (c : controller) (v : view) :
  views c !! selected_view c = Some v ->
  Forall (fun i => exists info, model_info (ctl_item_list c) i = Ok info)
         (selection v) ->
  NoDup (item_ids (ctl_item_list c)) ->
  exists c1 c2 v2,
    item_list_will_change c = Ok c1 /\
    send_model_changed c1 = Ok c2 /\
    views c2 !! selected_view c2 = Some v2 /\
    selection v2 = selection v.
Proof.
  intros Hv Hsel Hnd.
  destruct (for_each_ok _ _ Hsel) as [infos Hinfos].
  destruct (item_list_will_change_ok c v infos Hv Hinfos) as [_ Hc1].
  assert (Hloop : forall acc,
            restore_loop (ctl_item_list c) (map id infos) acc
            = Ok (acc ++ selection v)).
  { clear Hc1 Hv. revert infos Hinfos.
    induction (selection v) as [|i sel IH]; intros infos Hinfos acc;
      simpl in Hinfos.
    - injection Hinfos as <-. simpl. by rewrite app_nil_r.
    - apply Forall_cons in Hsel as [[info Hi] Hsel]. rewrite Hi in Hinfos.
      simpl in Hinfos.
      destruct (for_each _ sel) as [infos'|] eqn:Hrest; [|done].
      simpl in Hinfos. injection Hinfos as <-. simpl.
      destruct (model_info_get_iter _ _ _ Hnd Hi) as [-> _]. simpl.
      rewrite (IH Hsel infos' eq_refl). by rewrite <- app_assoc. }
  eexists _, _, _. split; [exact Hc1|].
  split.
  { unfold send_model_changed, restore_selected_ids, on_current_item_view,
      get_current_item_view. simpl. rewrite Hloop. simpl.
    rewrite lookup_fmap, lookup_insert_eq. simpl. reflexivity. }
  split; [apply lookup_insert_eq|done].
Qed.

(** *** Throbbers *)

Section Throbber.

Variable update_throbber : nat -> ItemList -> ItemList.
Variable finish_throbber : nat -> ItemList -> ItemList.

#[local] Abbreviation throbber :=
  (ThrobberAnimationManager update_throbber finish_throbber).

(** Every pending throbber timer waits 0.2 seconds and repeats after 0.2
    seconds. *)
Lemma throbber_delays m :
  @reachable throbber m ->
  Forall (fun t => timer_delay t = Q2Qc (2 # 10) /\
                   timer_repeat_delay t = Q2Qc (2 # 10)) (timers m).
Proof.
  induction 1 as [il views|m m' Hr IH Hstep]; [constructor|].
  destruct Hstep as [info m|n m m' Hf|il m]; [| |done].
  - unfold start. case_decide; [|done]. simpl.
    apply Forall_app. split; [done|]. by repeat constructor.
  - destruct (timers m !! n) as [t|] eqn:Hn;
      [|unfold fire in Hf; by rewrite Hn in Hf].
    destruct (fire_one_chain (hooks := throbber) m n t (reachable_one_chain (hooks := throbber) m Hr) Hn)
      as (m2 & Hf2 & _ & Htm).
    rewrite Hf in Hf2. injection Hf2 as <-. rewrite Htm.
    assert (Hdel : Forall (fun t => timer_delay t = Q2Qc (2 # 10) /\
                             timer_repeat_delay t = Q2Qc (2 # 10))
                     (delete n (timers m))).
    { destruct (delete_middle _ _ _ Hn) as (l1 & l2 & Hl & ->).
      rewrite Hl in IH. apply Forall_app in IH as [IH1 IH2].
      apply Forall_cons in IH2 as [_ IH2]. by apply Forall_app. }
    case_match; [done|]. apply Forall_app. split; [done|].
    rewrite Forall_forall in IH.
    destruct (IH t (list_elem_of_lookup_2 _ _ _ Hn)) as [_ Hrd].
    repeat constructor; simpl; by rewrite Hrd.
Qed.

(** X12.  A throbber keeps running exactly while its item is in the list
    and downloading.  When the timer of an item fires, the iteration
    returns; the id stays in the animating set, with a new timer after 0.2
    seconds, if and only if the item is still in the list with state
    'downloading'; otherwise the id leaves the set and no timer is added.
    All pending timers have delay and repeat delay 0.2. *)
Theorem throbber_runs_while_downloading (m : AnimationManager) (n : nat)
    (t : timer_call) :
  @reachable throbber m -> timers m !! n = Some t ->
  let downloading :=
    match get_item (item_list m) (timer_item_id t) with
    | Ok info => String.eqb (state info) "downloading"
    | Raise _ => false
    end in
  exists m',
    @fire throbber n m = Some (Ok m') /\
    (timer_item_id t ∈ currently_animating m' <-> downloading = true) /\
    timers m'
      = (if downloading
         then delete n (timers m)
                ++ [TimerCall (Q2Qc (2 # 10)) (timer_item_id t) (Q2Qc (2 # 10))]
         else delete n (timers m)) /\
    Forall (fun t => timer_delay t = Q2Qc (2 # 10) /\
                     timer_repeat_delay t = Q2Qc (2 # 10)) (timers m').
Proof.
  intros Hr Hn downloading.
  pose proof (reachable_one_chain (hooks := throbber) m Hr) as Hinv.
  destruct (fire_one_chain (hooks := throbber) m n t Hinv Hn) as (m' & Hf & Hca & Htm).
  destruct (fired_id m n t Hinv Hn) as (Hin & _ & _).
  assert (Hstop : @iteration_stops throbber (timer_item_id t) m = negb downloading).
  { unfold iteration_stops, downloading.
    destruct (get_item (item_list m) (timer_item_id t)) as [info|[]]; [|done].
    simpl. by destruct (String.eqb (state info) "downloading"). }
  pose proof (throbber_delays m Hr) as Hdel. rewrite Forall_forall in Hdel.
  destruct (Hdel t (list_elem_of_lookup_2 _ _ _ Hn)) as [_ Hrd].
  assert (Hdel' : Forall (fun t => timer_delay t = Q2Qc (2 # 10) /\
                            timer_repeat_delay t = Q2Qc (2 # 10)) (timers m')).
  { apply throbber_delays. apply reachable_step with m; [done|].
    by apply step_fire with n. }
  exists m'. split; [done|]. split; [|split; [|done]].
  - rewrite Hca, Hstop. destruct downloading; simpl; [done|]. set_solver.
  - rewrite Htm, Hstop, Hrd. by destruct downloading.
Qed.

End Throbber.

(** *** Starting an animation again *)

(** X13.  An animation that has ended can be started again: once a firing
    timer has stopped the chain of an item, [start] for that item puts the
    id back and schedules one timer, the only one pending for that id. *)
Theorem animation_restarts {hooks : AnimationHooks} (m m' : AnimationManager)
    (n : nat) (t : timer_call) (item_info : ItemInfo) :
  reachable m -> timers m !! n = Some t ->
  fire n m = Some (Ok m') ->
  iteration_stops (timer_item_id t) m = true ->
  id item_info = timer_item_id t ->
  (id item_info ∉ pending_ids m') /\
  (id item_info ∈ currently_animating (start item_info m')) /\
  timers (start item_info m')
    = timers m' ++ [TimerCall (initial_delay item_info) (id item_info)
                              (repeat_delay item_info)] /\
  one_chain_each (start item_info m').
Proof.
  intros Hr Hn Hf Hstop Hid.
  pose proof (reachable_one_chain m Hr) as Hinv.
  destruct (fire_one_chain m n t Hinv Hn) as (m2 & Hf2 & Hca & Htm).
  rewrite Hf in Hf2. injection Hf2 as <-. rewrite Hstop in Hca, Htm.
  pose proof (one_chain_fire m n m' Hinv Hf) as Hinv'.
  assert (Hout : id item_info ∉ currently_animating m').
  { rewrite Hca, Hid. set_solver. }
  split; [intros Hp; by apply Hout, Hinv'|].
  unfold start. rewrite decide_True by done. simpl.
  split; [set_solver|]. split; [done|].
  pose proof (one_chain_start item_info m' Hinv') as Hs.
  unfold start in Hs. by rewrite decide_True in Hs by done.
Qed.

(** *** Escape *)

(** The loop sends one message for each selected item that is downloading
    or uploading, in order, and reports whether it has sent any. *)
Lemma escape_loop_spec selection handled sent :
  let new := omap (fun info =>
                     if String.eqb (state info) "downloading"
                     then Some (CancelDownload (id info))
                     else if String.eqb (state info) "uploading"
                     then Some (StopUpload (id info))
                     else None) selection in
  escape_loop selection handled sent
  = (handled || bool_decide (new <> []), sent ++ new).
Proof.
  revert handled sent. induction selection as [|info rest IH];
    intros handled sent; simpl.
  - by rewrite orb_false_r, app_nil_r.
  - destruct (String.eqb (state info) "downloading").
    + rewrite IH. simpl. by rewrite orb_true_r, <- app_assoc.
    + destruct (String.eqb (state info) "uploading").
      * rewrite IH. simpl. by rewrite orb_true_r, <- app_assoc.
      * apply IH.
Qed.

(** X14.  [handle_escape] reports the key press as handled exactly when it
    has sent something: it sends [CancelDownload] for each selected item
    that is downloading and [StopUpload] for each that is uploading, in
    selection order, and nothing for items in any other state. *)
Theorem escape_handled_iff_sent (c : controller) (selection : list ItemInfo)
    (sent : list message) :
  get_selection c = Ok selection ->
  exists handled new,
    handle_escape c sent = Ok (handled, sent ++ new) /\
    (handled = true <-> new <> []) /\
    (handled = true <->
     exists info, info ∈ selection /\
                  (state info = "downloading" \/ state info = "uploading")) /\
    new = omap (fun info =>
                  if String.eqb (state info) "downloading"
                  then Some (CancelDownload (id info))
                  else if String.eqb (state info) "uploading"
                  then Some (StopUpload (id info))
                  else None) selection.
Proof.
  intros Hsel. unfold handle_escape. rewrite Hsel. simpl.
  rewrite escape_loop_spec. cbv zeta. simpl.
  eexists _, _. split; [done|]. split; [apply bool_decide_eq_true|].
  split; [|done]. rewrite bool_decide_eq_true.
  clear Hsel. induction selection as [|info rest IH]; simpl.
  - split; [done|]. by intros (info & ?%elem_of_nil & _).
  - destruct (String.eqb_spec (state info) "downloading") as [Hd|Hd].
    { split; [|done]. intros _. exists info. split; [left|by left]. }
    destruct (String.eqb_spec (state info) "uploading") as [Hu|Hu].
    { split; [|done]. intros _. exists info. split; [left|by right]. }
    rewrite IH. split.
    + intros (x & Hx & Hs). exists x. split; [by right|done].
    + intros (x & [->|Hx]%elem_of_cons & Hs); [by destruct Hs|eauto].
Qed.

(** *** Playing the selection *)

Lemma for_each_Forall2 {A B} (f : A -> result B) l ys :
  for_each f l = Ok ys -> Forall2 (fun x y => f x = Ok y) l ys.
Proof.
  revert ys. induction l as [|x l IH]; intros ys; simpl.
  - intros [= <-]. constructor.
  - destruct (f x) as [y|] eqn:Hy; [|done]. simpl.
    destruct (for_each f l) as [ys'|]; [|done]. simpl.
    intros [= <-]. constructor; [done|]. by apply IH.
Qed.

(** The head of the sorted list has the smallest key, and the sorted list
    has the elements of the list. *)
Lemma insert_by_key_elem p l q : q ∈ insert_by_key p l <-> q = p \/ q ∈ l.
Proof.
  induction l as [|r l IH]; simpl.
  - rewrite list_elem_of_singleton. set_solver.
  - destruct (p.1 <=? r.1)%nat; rewrite !elem_of_cons, ?IH; naive_solver.
Qed.

Lemma insert_by_key_head p l :
  match l with
  | [] => True
  | r :: _ => forall q, q ∈ l -> (r.1 <= q.1)%nat
  end ->
  exists r l', insert_by_key p l = r :: l' /\
               forall q, q ∈ insert_by_key p l -> (r.1 <= q.1)%nat.
Proof.
  destruct l as [|r l]; simpl.
  - intros _. exists p, []. split; [done|].
    by intros q ->%list_elem_of_singleton.
  - intros Hmin. destruct (Nat.leb_spec p.1 r.1) as [Hle|Hlt].
    + eexists _, _. split; [done|]. intros q [->|Hq]%elem_of_cons; [done|].
      specialize (Hmin q Hq). lia.
    + eexists _, _. split; [done|].
      intros q [->|Hq]%elem_of_cons; [done|].
      apply insert_by_key_elem in Hq as [->|Hq]; [lia|].
      apply Hmin. by right.
Qed.

Lemma sorted_head l :
  l <> [] ->
  exists r l', foldr insert_by_key [] l = r :: l' /\
               r ∈ l /\ forall q, q ∈ l -> (r.1 <= q.1)%nat.
Proof.
  assert (Helem : forall l q, q ∈ foldr insert_by_key [] l <-> q ∈ l).
  { clear. induction l as [|p l IH]; intros q; simpl; [done|].
    rewrite insert_by_key_elem, IH, elem_of_cons. done. }
  induction l as [|p l IH]; [done|]. intros _.
  change (foldr insert_by_key [] (p :: l))
    with (insert_by_key p (foldr insert_by_key [] l)).
  destruct (insert_by_key_head p (foldr insert_by_key [] l))
    as (r2 & l2 & Hs2 & Hmin2).
  { destruct l as [|p' l]; [done|].
    destruct IH as (r & l' & Hs & Hr & Hmin); [done|].
    rewrite Hs. intros q Hq. apply Hmin. apply Helem. by rewrite Hs. }
  exists r2, l2. split; [done|]. split.
  - apply (Helem (p :: l)).
    change (foldr insert_by_key [] (p :: l))
      with (insert_by_key p (foldr insert_by_key [] l)).
    rewrite Hs2. by left.
  - intros q Hq. apply Hmin2. apply insert_by_key_elem.
    apply elem_of_cons in Hq as [->|Hq]; [by left|right].
    by apply Helem.
Qed.

Lemma index_of_id_present il item_id :
  item_id ∈ item_ids il -> exists i, index_of_id il item_id = Ok i.
Proof.
  unfold item_ids. induction il as [|r il IH]; simpl.
  - by intros ?%elem_of_nil.
  - intros Hin. destruct (Nat.eqb_spec (id (row_info r)) item_id); [eauto|].
    apply elem_of_cons in Hin as [?|Hin]; [done|].
    destruct (IH Hin) as [i ->]. eauto.
Qed.

Lemma model_info_present il i info :
  model_info il i = Ok info -> id info ∈ item_ids il.
Proof.
  unfold model_info, item_ids. induction il as [|r il IH]; simpl; [done|].
  destruct (Nat.eqb (row_iter r) i).
  - intros [= <-]. by left.
  - intros H. right. by apply IH.
Qed.

Section WithPlayback.

Context {attrs : ItemAttributes}.
Variable shuffle : bool.
Variable repeat : bool.

#[local] Abbreviation play_selection := (play_selection shuffle repeat).
#[local] Abbreviation _play_item_list := (_play_item_list shuffle repeat).

(** X15.  [play_selection] with a non-empty selection plays from the
    topmost selected item: the start id is one of the selected ids, and no
    selected item comes before it in the item list, whatever the order of
    the selection. *)
Theorem play_selection_from_top (presentation_mode : string)
    (force_resume : bool) (p : player) (selection : list ItemInfo) :
  get_selection (ctl p) = Ok selection ->
  selection <> [] ->
  exists top i,
    top ∈ map id selection /\
    index_of_id (ctl_item_list (ctl p)) top = Ok i /\
    (forall x j, x ∈ map id selection ->
                 index_of_id (ctl_item_list (ctl p)) x = Ok j -> (i <= j)%nat) /\
    play_selection presentation_mode force_resume p
    = _play_item_list (Some top) presentation_mode force_resume p.
Proof.
  intros Hsel Hne.
  set (il := ctl_item_list (ctl p)).
  assert (Hin : Forall (fun info => id info ∈ item_ids il) selection).
  { unfold get_selection in Hsel.
    destruct (get_current_item_view (ctl p)) as [v|]; [|done]. simpl in Hsel.
    apply for_each_Forall2 in Hsel. clear Hne.
    induction Hsel as [|i info sel infos Hi _ IH]; constructor; [|done].
    by apply model_info_present with i. }
  unfold ItemListControllerMore.play_selection. rewrite Hsel. simpl.
  destruct selection as [|info1 [|info2 rest]]; [done| |].
  - apply Forall_cons in Hin as [Hin _].
    destruct (index_of_id_present il _ Hin) as [i Hi].
    exists (id info1), i. simpl. split; [by left|]. split; [done|].
    split; [|done].
    intros x j ->%list_elem_of_singleton Hj. fold il in Hj.
    rewrite Hi in Hj. injection Hj as <-. lia.
  - set (sel := info1 :: info2 :: rest) in *.
    assert (Hkeys : exists keys,
              for_each (index_of_id il) (map id sel) = Ok keys).
    { apply for_each_ok. apply Forall_forall.
      intros x (info & -> & Hx)%list_elem_of_fmap.
      rewrite Forall_forall in Hin. by apply index_of_id_present, Hin. }
    destruct Hkeys as [keys Hkeys].
    pose proof (for_each_Forall2 _ _ _ Hkeys) as Hall.
    assert (Hzip : forall q, q ∈ zip keys (map id sel) <->
                             q.2 ∈ map id sel /\
                             index_of_id il q.2 = Ok q.1).
    { clear -Hall. induction Hall as [|x k l ks Hk _ IH]; intros [a b]; simpl.
      - split; [by intros ?%elem_of_nil|by intros [?%elem_of_nil _]].
      - rewrite !elem_of_cons, IH. simpl. split.
        + intros [[= -> ->]|[? ?]]; auto.
        + intros [[->|Hb] Hi]; [left; congruence|by right]. }
    destruct (sorted_head (zip keys (map id sel))) as (r & l' & Hs & Hr & Hmin).
    { apply Forall2_length in Hall. simpl in Hall.
      destruct keys; [done|]. done. }
    apply Hzip in Hr as [Hr1 Hr2].
    exists r.2, r.1. split; [done|]. split; [done|]. split.
    + intros x j Hx Hj. apply (Hmin (j, x)). by apply Hzip.
    + unfold sort_by_key. fold il. change (map id (info1 :: info2 :: rest))
        with (map id sel). rewrite Hkeys.
      change (Ok keys ≫= _) with
        (Ok (A := list nat) ((foldr insert_by_key [] (zip keys (map id sel))).*2)).
      rewrite Hs. done.
Qed.

(** X16.  [play_selection] with nothing selected does nothing at all when
    no item of the list is playable, and otherwise stops what is playing
    and starts playback with no start item.  A selected container item is
    not played: playback is stopped, its contents are displayed, and the
    controller does not mark itself as playing. *)
Theorem play_selection_edges (presentation_mode : string)
    (force_resume : bool) (p : player) :
  (get_selection (ctl p) = Ok [] ->
   play_selection presentation_mode force_resume p
   = Ok (if can_play_items (ctl p)
         then Player (ctl p) true
                     (calls p ++ [playback_stop;
                                  playback_start None presentation_mode
                                                 force_resume;
                                  playback_set_shuffle shuffle;
                                  playback_set_repeat repeat])
         else p)) /\
  (forall selected info,
     get_selection (ctl p) = Ok [selected] ->
     get_item (ctl_item_list (ctl p)) (id selected) = Ok info ->
     is_container_item info = true ->
     play_selection presentation_mode force_resume p
     = Ok (Player (ctl p) (_playing_items p)
                  (calls p ++ [playback_stop;
                               push_folder_contents_display info true]))).
Proof.
  split.
  - intros Hsel. unfold ItemListControllerMore.play_selection,
      ItemListControllerMore._play_item_list.
    rewrite Hsel. simpl.
    destruct (can_play_items (ctl p)); simpl; [|done].
    by rewrite <- app_assoc.
  - intros selected info Hsel Hi Hc.
    unfold ItemListControllerMore.play_selection,
      ItemListControllerMore._play_item_list.
    rewrite Hsel. simpl. rewrite Hi. simpl. rewrite Hc.
    by rewrite <- app_assoc.
Qed.

(** X19.  [on_resume_playing] with a last-played id other than 0 never
    raises: when the item is no longer in the list, or no id was recorded,
    it logs one warning and plays nothing. *)
Theorem resume_missing_item (last_played_id : option nat) (p : player)
    (warnings : list string) :
  last_played_id <> Some 0%nat ->
  (exists p' warnings',
     on_resume_playing shuffle repeat last_played_id p warnings
     = Ok (p', warnings')) /\
  match last_played_id with
  | Some i =>
    i ∉ item_ids (ctl_item_list (ctl p)) ->
    exists line,
      on_resume_playing shuffle repeat last_played_id p warnings
      = Ok (p, warnings ++ [line])
  | None =>
    exists line,
      on_resume_playing shuffle repeat last_played_id p warnings
      = Ok (p, warnings ++ [line])
  end.
Proof.
  intros Hnz. unfold on_resume_playing.
  destruct last_played_id as [i|]; [|split; eauto].
  assert (Hi : Nat.eqb i 0 = false).
  { apply Nat.eqb_neq. congruence. }
  rewrite Hi. simpl.
  destruct (decide (i ∈ item_ids (ctl_item_list (ctl p)))) as [Hin|Hout].
  - split; [|done].
    destruct (find_row_present _ _ Hin) as (r & Hr & _).
    unfold ItemListControllerMore._play_item_list, get_item.
    rewrite Hr. simpl.
    destruct (is_container_item (row_info r)); simpl; eauto.
  - rewrite (get_item_absent _ _ Hout). simpl. split; eauto.
Qed.

End WithPlayback.

(** *** The theorems at work on two items in two views *)

Import Examples MoreExamples.

Local Open Scope nat_scope.

Lemma make_sorter_fallback_witness :
  make_sorter sort_key_map default_sort_column "videos" "rating" true
  = Ok (Sorter "date" false).
Proof.
  destruct (make_sorter_fallback sort_key_map default_sort_column
              "videos" "rating" true) as (_ & H & _).
  destruct H as [_ H]; [vm_compute; reflexivity|].
  apply (H "-date" "date"); vm_compute; reflexivity.
Defined.

Lemma saved_sort_key_round_trip_witness :
  get_sorter sort_key_map default_sort_column "videos"
             (make_sort_key (Sorter "date" false))
  = Ok (Sorter "date" false).
Proof.
  apply (saved_sort_key_round_trip sort_key_map default_sort_column "videos"
           (Sorter "date" false)); vm_compute; reflexivity.
Defined.

Lemma selection_survives_change_witness :
  exists ids c1, get_selected_ids both_selected = Ok ids /\
                 item_list_will_change both_selected = Ok c1.
Proof.
  destruct (selection_survives_change both_selected
              (View [11; 10] 0 0) [Row 11 (mkItemInfo 2 "new")])
    as (ids & c1 & _ & _ & _ & _ & Hids & Hc1 & _).
  - vm_compute. reflexivity.
  - repeat constructor; eexists; vm_compute; reflexivity.
  - by exists ids, c1.
Defined.

Lemma selection_restored_witness :
  exists c1 c2 v2,
    item_list_will_change both_selected = Ok c1 /\
    send_model_changed c1 = Ok c2 /\
    views c2 !! selected_view c2 = Some v2 /\
    selection v2 = [11; 10].
Proof.
  apply (selection_restored both_selected (View [11; 10] 0 0)).
  - vm_compute. reflexivity.
  - repeat constructor; eexists; vm_compute; reflexivity.
  - vm_compute. repeat constructor; set_solver.
Defined.

Lemma throbber_runs_while_downloading_witness :
  let m := @start throbber_hooks (mkItemInfo 1 "downloading")
                  (new_AnimationManager two_items []) in
  exists m', @fire throbber_hooks 0 m = Some (Ok m') /\
             1 ∈ currently_animating m'.
Proof.
  intros m.
  destruct (throbber_runs_while_downloading (fun _ il => il) (fun _ il => il)
              m 0 (TimerCall (Q2Qc (2 # 10)) 1 (Q2Qc (2 # 10))))
    as (m' & Hf & Hin & _).
  - apply reachable_step with (new_AnimationManager two_items []).
    + apply reachable_new.
    + apply step_start.
  - reflexivity.
  - exists m'. split; [exact Hf|]. apply Hin. reflexivity.
Defined.

Lemma animation_restarts_witness :
  let m := @start throbber_hooks (mkItemInfo 2 "new")
                  (new_AnimationManager two_items []) in
  exists m', @fire throbber_hooks 0 m = Some (Ok m') /\
             2 ∈ currently_animating (@start throbber_hooks (mkItemInfo 2 "new") m').
Proof.
  intros m.
  assert (Hr : @reachable throbber_hooks m).
  { apply reachable_step with (new_AnimationManager two_items []).
    - apply reachable_new.
    - apply step_start. }
  destruct (@fire_one_chain throbber_hooks m 0
              (TimerCall (Q2Qc (2 # 10)) 2 (Q2Qc (2 # 10)))
              (reachable_one_chain m Hr) eq_refl) as (m' & Hf & _).
  exists m'. split; [exact Hf|].
  destruct (@animation_restarts throbber_hooks m m' 0
              (TimerCall (Q2Qc (2 # 10)) 2 (Q2Qc (2 # 10))) (mkItemInfo 2 "new")
              Hr eq_refl Hf) as (_ & Hin & _); [reflexivity..|exact Hin].
Defined.

Lemma escape_handled_iff_sent_witness :
  handle_escape two_views [] = Ok (true, [CancelDownload 1]).
Proof.
  destruct (escape_handled_iff_sent two_views [mkItemInfo 1 "downloading"] [])
    as (handled & new & Hh & Hiff & _ & Hnew).
  - vm_compute. reflexivity.
  - rewrite Hh, Hnew. rewrite Hnew in Hiff.
    assert (Ht : handled = true) by (apply Hiff; discriminate).
    rewrite Ht. reflexivity.
Defined.

Lemma play_selection_from_top_witness :
  exists top,
    @play_selection one_folder true false "fit-to-bounds" false
                    (Player both_selected false [])
    = @_play_item_list one_folder true false (Some top) "fit-to-bounds" false
                       (Player both_selected false []).
Proof.
  destruct (@play_selection_from_top one_folder true false "fit-to-bounds"
              false (Player both_selected false [])
              [mkItemInfo 2 "new"; mkItemInfo 1 "downloading"])
    as (top & i & _ & _ & _ & H).
  - vm_compute. reflexivity.
  - discriminate.
  - by exists top.
Defined.

Lemma play_selection_edges_witness :
  @play_selection one_folder true false "fit-to-bounds" false
                  (Player two_views false [])
  = Ok (Player two_views false
               [playback_stop;
                push_folder_contents_display (mkItemInfo 1 "downloading") true]).
Proof.
  apply (proj2 (@play_selection_edges one_folder true false "fit-to-bounds"
                  false (Player two_views false []))
               (mkItemInfo 1 "downloading") (mkItemInfo 1 "downloading"));
    vm_compute; reflexivity.
Defined.

Lemma resume_missing_item_witness :
  exists line,
    @on_resume_playing one_folder true false (Some 7) (Player two_views false []) []
    = Ok (Player two_views false [], [line]).
Proof.
  destruct (@resume_missing_item one_folder true false (Some 7)
              (Player two_views false []) []) as [_ H].
  - discriminate.
  - apply H. vm_compute. set_solver.
Defined.

End ItemListControllerMoreFacts.

(** ** The controller manager *)

Module ControllerManagerFacts.

Import ItemListController ControllerManager.


(** X18.  After [controller_no_longer_displayed] nothing is displayed,
    whichever controller is passed.  The displayed controller is told
    [no_longer_displayed] only when it is the one passed; otherwise a
    warning is logged and no controller is called.  So displaying a
    controller and undisplaying it calls [on_displayed] and then
    [no_longer_displayed] on it, after which [focus_view] returns [False]
    and [play_selection] does nothing. *)
Theorem display_and_undisplay (c : controller_ref) (m : manager) :
  displayed (controller_no_longer_displayed c m) = None /\
  (forall d, displayed m = Some d -> ident d = ident c ->
     method_calls (controller_no_longer_displayed c m)
       = method_calls m ++ [(ident d, no_longer_displayed)] /\
     warnings (controller_no_longer_displayed c m) = warnings m) /\
  ((displayed m = None \/
    exists d, displayed m = Some d /\ ident d <> ident c) ->
     method_calls (controller_no_longer_displayed c m) = method_calls m /\
     warnings (controller_no_longer_displayed c m) = S (warnings m)) /\
  (let m' := undisplay_controller (controller_displayed c m) in
   displayed m' = None /\
   method_calls m'
     = method_calls m ++ [(ident c, on_displayed);
                          (ident c, no_longer_displayed)] /\
   warnings m' = warnings m /\
   focus_view m' = (false, m') /\
   forall presentation_mode, play_selection presentation_mode m' = m').
Proof.
  split; [done|]. split; [|split].
  - intros d Hd Hid. unfold controller_no_longer_displayed, is_not.
    rewrite Hd, <- Hid, Nat.eqb_refl. by simpl.
  - intros [Hd|(d & Hd & Hid)]; unfold controller_no_longer_displayed, is_not;
      rewrite Hd; [done|].
    apply not_eq_sym, Nat.eqb_neq in Hid. by rewrite Hid.
  - unfold undisplay_controller, controller_displayed,
      controller_no_longer_displayed, is_not. simpl.
    rewrite Nat.eqb_refl. simpl. by rewrite <- app_assoc.
Qed.

Import MoreExamples.


Lemma display_and_undisplay_witness :
  method_calls (controller_no_longer_displayed feed_5
                  (controller_displayed playlist_5 new_manager))
    = [(2%nat, on_displayed)] /\
  warnings (controller_no_longer_displayed feed_5
              (controller_displayed playlist_5 new_manager)) = 1%nat.
Proof.
  destruct (display_and_undisplay feed_5
              (controller_displayed playlist_5 new_manager)) as (_ & _ & H & _).
  apply H. right. exists playlist_5. split; [reflexivity|]. simpl. lia.
Defined.

End ControllerManagerFacts.
